(** * Legal document analyzer: the text-analysis pipeline

    A shallow embedding of [document_parser.py], [text_analyzer.py],
    [summarizer.py] and [legal_analyzer.py], and the properties of the
    pipeline that the specification states.

    Conventions.
    - A Python [str] is a [list ascii]; a character is read as the code
      point 0..255, so the model is exact on ASCII and Latin-1 documents.
      The character tables below ([char_lower], [is_space], [is_digit],
      [is_word]) are CPython's on that range.
    - Positions and lengths are [nat]; where the source computes
      [max(0, a - b)] the truncated subtraction of [nat] is written as it is.
      The one integer that the caller chooses freely, [max_sentences], is a
      [Z].
    - The [re] module is embedded as a backtracking matcher over a small
      pattern syntax that covers every pattern of the sources. *)

From Stdlib Require Import Ascii String.
From Stdlib Require Import List ZArith Lia Bool Arith.
From Stdlib Require Import Permutation Sorted DecimalString.
From Stdlib Require Import PrimFloat Uint63.
Import ListNotations.

Set Implicit Arguments.
Set Warnings "-inexact-float".
Local Open Scope nat_scope.

(** ** Python strings *)

Definition str := list ascii.

(** A literal of the source, written as a Rocq string. *)
Definition lit (s : string) : str := list_ascii_of_string s.

Definition code (c : ascii) : nat := nat_of_ascii c.

Definition between (lo hi n : nat) : bool := (lo <=? n) && (n <=? hi).

(** [str.lower()] on one character: A-Z and the Latin-1 capitals
    U+00C0..U+00DE (the multiplication sign U+00D7 apart). *)
Definition char_lower (c : ascii) : ascii :=
  let n := code c in
  if between 65 90 n || between 192 214 n || between 216 222 n
  then ascii_of_nat (n + 32)
  else c.

Definition str_lower (s : str) : str := map char_lower s.

(** [str.isspace()], which is also the class [\s] of [re] and the set that
    [str.strip()] and [str.split()] use. *)
Definition is_space (c : ascii) : bool :=
  let n := code c in
  between 9 13 n || between 28 32 n || (n =? 133) || (n =? 160).

(** The class [\d]. *)
Definition is_digit (c : ascii) : bool := between 48 57 (code c).

(** The class [\w], which decides the boundary [\b]: alphanumeric
    characters and the underscore. *)
Definition is_word (c : ascii) : bool :=
  let n := code c in
  between 48 57 n || between 65 90 n || between 97 122 n || (n =? 95)
  || (n =? 170) || (n =? 181) || (n =? 186)
  || between 178 179 n || (n =? 185) || between 188 190 n
  || between 192 214 n || between 216 246 n || between 248 255 n.

Definition str_eqb (a b : str) : bool :=
  if list_eq_dec ascii_dec a b then true else false.

(** [x in l] for a list of strings. *)
Definition str_mem (x : str) (l : list str) : bool := existsb (str_eqb x) l.

(** [s[lo:hi]] for [0 <= lo] and [0 <= hi]. *)
Definition slice {A} (l : list A) (lo hi : nat) : list A :=
  firstn (hi - lo) (skipn lo l).

(** [l[:k]] for any integer [k]: a negative [k] counts from the end. *)
Definition slice_to {A} (l : list A) (k : Z) : list A :=
  if (k <? 0)%Z
  then firstn (length l - Z.to_nat (- k)) l
  else firstn (Z.to_nat k) l.

Fixpoint drop_while {A} (p : A -> bool) (l : list A) : list A :=
  match l with
  | [] => []
  | x :: t => if p x then drop_while p t else l
  end.

Definition lstrip (s : str) : str := drop_while is_space s.
Definition rstrip (s : str) : str := rev (drop_while is_space (rev s)).

(** [s.strip()] *)
Definition strip (s : str) : str := rstrip (lstrip s).

(** [sep.join(l)] *)
Fixpoint join (sep : str) (l : list str) : str :=
  match l with
  | [] => []
  | [x] => x
  | x :: t => x ++ sep ++ join sep t
  end.

(** [s.split(sep)] for a one-character separator. *)
Fixpoint split_char (sep : ascii) (s : str) : list str :=
  match s with
  | [] => [[]]
  | c :: t =>
      if Ascii.eqb c sep then [] :: split_char sep t
      else match split_char sep t with
           | h :: r => (c :: h) :: r
           | [] => [[c]]
           end
  end.

(** [s.split()]: the maximal runs of characters that are not white space.
    [w] is the run being read, last character first. *)
Fixpoint split_ws_from (w : str) (s : str) : list str :=
  match s with
  | [] => match w with [] => [] | _ => [rev w] end
  | c :: t =>
      if is_space c
      then match w with
           | [] => split_ws_from [] t
           | _ => rev w :: split_ws_from [] t
           end
      else split_ws_from (c :: w) t
  end.

Definition split_ws (s : str) : list str := split_ws_from [] s.

Fixpoint is_prefix (p s : str) : bool :=
  match p, s with
  | [], _ => true
  | a :: p', b :: s' => Ascii.eqb a b && is_prefix p' s'
  | _ :: _, [] => false
  end.

(** [needle in hay] *)
Fixpoint contains (needle hay : str) : bool :=
  is_prefix needle hay ||
  match hay with
  | [] => false
  | _ :: t => contains needle t
  end.

(** [str(n)] for a count. *)
Definition str_of_nat (n : nat) : str :=
  lit (NilZero.string_of_uint (Nat.to_uint n)).

(** [enumerate(l)], from [i]. *)
Fixpoint enumerate_from {A} (i : nat) (l : list A) : list (nat * A) :=
  match l with
  | [] => []
  | x :: t => (i, x) :: enumerate_from (S i) t
  end.

Definition enumerate {A} (l : list A) : list (nat * A) := enumerate_from 0 l.

(** ** The [re] module

    Patterns are kept as syntax trees. Every repetition in the sources'
    patterns is applied to a single character or character class, so the
    repetitions of the syntax take an [atom]. *)

Inductive citem :=
| CChar (c : ascii)           (* a character inside [...] *)
| CRange (lo hi : ascii)      (* lo-hi *)
| CDigit                      (* \d *)
| CSpace.                     (* \s *)

Inductive atom :=
| ALit (c : ascii)                       (* one literal character *)
| ASet (neg : bool) (items : list citem). (* [...] and [^...] *)

Inductive regex :=
| REps                          (* the empty pattern *)
| RAtom (a : atom)
| RStar (a : atom)              (* a*, greedy *)
| RPlus (a : atom)              (* a+, greedy *)
| RBol                          (* ^ *)
| REol                          (* $ *)
| RWordB                        (* \b *)
| RSeq (r1 r2 : regex)
| RAlt (r1 r2 : regex)          (* r1|r2, the left branch first *)
| RGroup (n : nat) (r : regex). (* the n-th capturing group *)

(** [r?] *)
Definition ROpt (r : regex) : regex := RAlt r REps.

(** The atoms [\s] and [\d]. *)
Definition a_space : atom := ASet false [CSpace].
Definition a_digit : atom := ASet false [CDigit].

(** A run of literal characters. *)
Fixpoint r_lits (s : str) : regex :=
  match s with
  | [] => REps
  | c :: t => RSeq (RAtom (ALit c)) (r_lits t)
  end.

Definition r_word (s : string) : regex := r_lits (lit s).

(** [re.compile(re.escape(s))]: every character of [s] stands for itself. *)
Definition re_escape (s : str) : regex := r_lits s.

(** One item of a class against a character. With [re.IGNORECASE] the
    compiler lowers the items of the class (a range becomes the set of the
    lowered characters of the range) and the matcher tests the lowered
    character of the text; [c] is that character already. *)
Definition citem_match (ic : bool) (c : ascii) (it : citem) : bool :=
  match it with
  | CChar p => Ascii.eqb c (if ic then char_lower p else p)
  | CRange lo hi =>
      if ic
      then existsb (fun x => Ascii.eqb (char_lower (ascii_of_nat x)) c)
                   (seq (code lo) (S (code hi) - code lo))
      else between (code lo) (code hi) (code c)
  | CDigit => is_digit c
  | CSpace => is_space c
  end.

(** [ic] is the flag [re.IGNORECASE]. *)
Definition atom_match (ic : bool) (a : atom) (c : ascii) : bool :=
  let c' := if ic then char_lower c else c in
  match a with
  | ALit p => Ascii.eqb c' (if ic then char_lower p else p)
  | ASet neg items => xorb neg (existsb (citem_match ic c') items)
  end.

(** The capturing groups closed so far, the latest first, and
    [Match.lastindex]: the group closed last. *)
Record marks := Marks {
  spans : list (nat * (nat * nat));
  lastindex : option nat
}.

Definition no_marks : marks := Marks [] None.

Definition close_group (n : nat) (s e : nat) (mk : marks) : marks :=
  Marks ((n, (s, e)) :: spans mk) (Some n).

Fixpoint span_of (n : nat) (l : list (nat * (nat * nat))) : option (nat * nat) :=
  match l with
  | [] => None
  | (g, se) :: t => if g =? n then Some se else span_of n t
  end.

Definition opt_word (o : option ascii) : bool :=
  match o with
  | Some c => is_word c
  | None => false
  end.

Section Matcher.
Variable R : Type.
Variable ic : bool.

(** The matcher reads the text through a cursor: the character before
    the position ([None] at the start of the text), the text from the
    position on, and the position. A continuation receives the cursor
    after the match; [None] from it makes the matcher backtrack. *)
Definition kont : Type := option ascii -> str -> nat -> option R.

(** Greedy repetition of an atom: first one more character, then the
    rest of the pattern. *)
Fixpoint rep (a : atom) (prev : option ascii) (rest : str) (pos : nat)
         (k : kont) : option R :=
  match rest with
  | c :: t =>
      if atom_match ic a c
      then match rep a (Some c) t (S pos) k with
           | Some r => Some r
           | None => k prev rest pos
           end
      else k prev rest pos
  | [] => k prev rest pos
  end.

Fixpoint rmatch_k (r : regex) (prev : option ascii) (rest : str) (pos : nat)
         (mk : marks) (k : option ascii -> str -> nat -> marks -> option R)
  : option R :=
  match r with
  | REps => k prev rest pos mk
  | RAtom a =>
      match rest with
      | c :: t => if atom_match ic a c then k (Some c) t (S pos) mk else None
      | [] => None
      end
  | RStar a => rep a prev rest pos (fun p s q => k p s q mk)
  | RPlus a =>
      match rest with
      | c :: t =>
          if atom_match ic a c
          then rep a (Some c) t (S pos) (fun p s q => k p s q mk)
          else None
      | [] => None
      end
  | RBol => match prev with None => k prev rest pos mk | Some _ => None end
  | REol =>
      match rest with
      | [] => k prev rest pos mk
      | [c] => if Ascii.eqb c "010" then k prev rest pos mk else None
      | _ => None
      end
  | RWordB =>
      if xorb (opt_word prev) (opt_word (hd_error rest))
      then k prev rest pos mk else None
  | RSeq r1 r2 =>
      rmatch_k r1 prev rest pos mk (fun p s q mk' => rmatch_k r2 p s q mk' k)
  | RAlt r1 r2 =>
      match rmatch_k r1 prev rest pos mk k with
      | Some x => Some x
      | None => rmatch_k r2 prev rest pos mk k
      end
  | RGroup n r1 =>
      rmatch_k r1 prev rest pos mk
               (fun p s q mk' => k p s q (close_group n pos q mk'))
  end.
End Matcher.

(** A match object: [m.start()], [m.end()] and the groups. *)
Record rmatch := RMatch {
  m_start : nat;
  m_end : nat;
  m_marks : marks
}.

(** [m.group()] *)
Definition group0 (s : str) (m : rmatch) : str := slice s (m_start m) (m_end m).

(** [m.group(n)] for a group that took part in the match. *)
Definition group (s : str) (m : rmatch) (n : nat) : str :=
  match span_of n (spans (m_marks m)) with
  | Some (b, e) => slice s b e
  | None => []
  end.

(** One attempt at position [pos]. [must_advance] is the scanner's flag of
    the same name: set after an empty match, it refuses a match that ends
    where the attempt starts. *)
Definition match_at (ic : bool) (r : regex) (prev : option ascii) (rest : str)
           (pos : nat) (must_advance : bool) : option rmatch :=
  rmatch_k ic r prev rest pos no_marks
           (fun _ _ q mk =>
              if must_advance && (q =? pos) then None
              else Some (RMatch pos q mk)).

(** [re.search]: the first position, from the left, where an attempt
    succeeds. *)
Fixpoint search_from (ic : bool) (r : regex) (prev : option ascii) (rest : str)
         (pos : nat) : option rmatch :=
  match match_at ic r prev rest pos false with
  | Some m => Some m
  | None =>
      match rest with
      | [] => None
      | c :: t => search_from ic r (Some c) t (S pos)
      end
  end.

Definition re_search (ic : bool) (r : regex) (s : str) : option rmatch :=
  search_from ic r None s 0.

(** The scanner behind [finditer], [split] and [sub]: the successive
    non-overlapping matches, left to right. [resume] is the end of the
    last match; positions before it are covered by that match. After an
    empty match at a position the scanner tries the same position once
    more with [must_advance] set, and then moves on. *)
Fixpoint scan (ic : bool) (r : regex) (prev : option ascii) (rest : str)
         (pos resume : nat) : list rmatch :=
  let found :=
    if pos <? resume then []
    else match match_at ic r prev rest pos false with
         | None => []
         | Some m =>
             if m_end m =? pos
             then m :: match match_at ic r prev rest pos true with
                       | Some m' => [m']
                       | None => []
                       end
             else [m]
         end in
  let resume' := last (map m_end found) resume in
  found ++ match rest with
           | [] => []
           | c :: t => scan ic r (Some c) t (S pos) resume'
           end.

(** [re.finditer] *)
Definition re_finditer (ic : bool) (r : regex) (s : str) : list rmatch :=
  scan ic r None s 0 0.

(** The stretches of [s] between the matches [ms], from position [i]:
    before the first match, between two matches, after the last. *)
Fixpoint between_matches (s : str) (i : nat) (ms : list rmatch) : list str :=
  match ms with
  | [] => [slice s i (length s)]
  | m :: t => slice s i (m_start m) :: between_matches s (m_end m) t
  end.

(** [re.split(r, s)] for a pattern without groups. *)
Definition re_split (ic : bool) (r : regex) (s : str) : list str :=
  between_matches s 0 (re_finditer ic r s).

(** [re.sub(r, f, s)] for a function [f] of the matched text. *)
Fixpoint sub_from (f : str -> str) (s : str) (i : nat) (ms : list rmatch) : str :=
  match ms with
  | [] => slice s i (length s)
  | m :: t => slice s i (m_start m) ++ f (group0 s m) ++ sub_from f s (m_end m) t
  end.

Definition re_sub (ic : bool) (r : regex) (f : str -> str) (s : str) : str :=
  sub_from f s 0 (re_finditer ic r s).

(** A sequence and an alternation of several patterns. *)
Definition r_seq (l : list regex) : regex := fold_right RSeq REps l.

Fixpoint r_alt (l : list regex) : regex :=
  match l with
  | [] => REps
  | [r] => r
  | r :: t => RAlt r (r_alt t)
  end.

(** Python dictionaries keep the order of insertion; assigning to a key
    that is present replaces its value in place. *)
Fixpoint dict_set {V} (k : str) (v : V) (d : list (str * V)) : list (str * V) :=
  match d with
  | [] => [(k, v)]
  | (k', v') :: t =>
      if str_eqb k' k then (k', v) :: t else (k', v') :: dict_set k v t
  end.

Fixpoint dict_get {V} (k : str) (d : list (str * V)) : option V :=
  match d with
  | [] => None
  | (k', v') :: t => if str_eqb k' k then Some v' else dict_get k t
  end.

(** ** text_analyzer.py *)

Module TextAnalyzer.

Definition quote : ascii := "034".
Definition newline : ascii := "010".

(** [(?:^|\n)], the opening of the line-anchored patterns. *)
Definition line_start : regex := RAlt RBol (RAtom (ALit newline)).

(** [clause_patterns[0]], one component a line:
      (?:^|\n)   \s*   (?:CLAUSE|Article|Section|Paragraph)   \s+
      ( \d+ [.\d]* )   [:\s]                                      *)
Definition labeled_marker : regex :=
  r_seq [ line_start; RStar a_space;
          r_alt [r_word "CLAUSE"; r_word "Article"; r_word "Section";
                 r_word "Paragraph"];
          RPlus a_space;
          RGroup 1 (RSeq (RPlus a_digit) (RStar (ASet false [CChar "."; CDigit])));
          RAtom (ASet false [CChar ":"; CSpace]) ].

(** [clause_patterns[1]]:
      (?:^|\n)   \s*   ( \d+ )   \.   \s+   [A-Z]                   *)
Definition numeric_marker : regex :=
  r_seq [ line_start; RStar a_space;
          RGroup 1 (RPlus a_digit);
          RAtom (ALit "."); RPlus a_space;
          RAtom (ASet false [CRange "A" "Z"]) ].

Definition clause_patterns : list regex := [labeled_marker; numeric_marker].

(** [definition_patterns[0]], with Q for the double quote:
      Q   ( [^Q]+ )   Q   \s+
      (?:means|shall mean|refers to|is defined as)                  *)
Definition quoted_term : regex :=
  r_seq [ RAtom (ALit quote);
          RGroup 1 (RPlus (ASet true [CChar quote]));
          RAtom (ALit quote); RPlus a_space;
          r_alt [r_word "means"; r_word "shall mean"; r_word "refers to";
                 r_word "is defined as"] ].

(** [definition_patterns[1]]:
      (?:^|\n)   \s*   DEFINITION   S?   \s*   (?::|$)                *)
Definition definitions_heading : regex :=
  r_seq [ line_start; RStar a_space;
          r_word "DEFINITION"; ROpt (RAtom (ALit "S")); RStar a_space;
          RAlt (RAtom (ALit ":")) REol ].

Definition definition_patterns : list regex := [quoted_term; definitions_heading].

(** [obligation_patterns[0]]:
      \b   (?:shall|must|will|is required to|is obligated to|agrees to)
      \b                                                            *)
Definition obligation_verbs : regex :=
  r_seq [ RWordB;
          r_alt [r_word "shall"; r_word "must"; r_word "will";
                 r_word "is required to"; r_word "is obligated to";
                 r_word "agrees to"];
          RWordB ].

(** [obligation_patterns[1]]:
      \b   (?:responsibilities?|obligations?|duties)   \b            *)
Definition obligation_nouns : regex :=
  r_seq [ RWordB;
          r_alt [RSeq (r_word "responsibilitie") (ROpt (RAtom (ALit "s")));
                 RSeq (r_word "obligation") (ROpt (RAtom (ALit "s")));
                 r_word "duties"];
          RWordB ].

Definition obligation_patterns : list regex := [obligation_verbs; obligation_nouns].

(** [[.!?]+], the sentence separator. *)
Definition sentence_end : regex :=
  RPlus (ASet false [CChar "."; CChar "!"; CChar "?"]).

Record Clause := { number : str; text : str }.

Record Definition_ := { term : str; definition : str }.

(** [s[:n] + '...' if len(s) > n else s] *)
Definition preview (n : nat) (s : str) : str :=
  if n <? length s then slice_to s (Z.of_nat n) ++ lit "..." else s.

(** The truth value of [match.lastindex]. *)
Definition truthy_index (o : option nat) : bool :=
  match o with
  | Some (S _) => true
  | _ => false
  end.

(** The clause that line [i] adds when [pattern] has matched it with [m];
    [clauses] are the clauses found so far. *)
Definition make_clause (lines : list str) (i : nat) (line : str)
           (m : rmatch) (clauses : list Clause) : Clause :=
  let context_lines := slice lines i (Nat.min (i + 5) (length lines)) in
  let context := strip (join (lit " ") context_lines) in
  {| number := if truthy_index (lastindex (m_marks m))
               then group line m 1
               else str_of_nat (length clauses + 1);
     text := preview 200 context |}.

(** The loop over the patterns for one line; it ends at the first
    pattern that matches ([break]). *)
Fixpoint try_patterns (lines : list str) (i : nat) (line : str)
         (patterns : list regex) (clauses : list Clause) : list Clause :=
  match patterns with
  | [] => clauses
  | pattern :: more =>
      match re_search true pattern line with
      | Some m => clauses ++ [make_clause lines i line m clauses]
      | None => try_patterns lines i line more clauses
      end
  end.

Definition extract_clauses (text : str) : list Clause :=
  let lines := split_char newline text in
  fold_left (fun clauses il => try_patterns lines (fst il) (snd il)
                                            clause_patterns clauses)
            (enumerate lines) [].

Definition extract_definitions (text : str) : list Definition_ :=
  let definitions :=
    map (fun m =>
           let start := m_start m - 50 in
           let end_ := Nat.min (length text) (m_end m + 150) in
           {| term := group text m 1;
              definition := strip (slice text start end_) |})
        (re_finditer true (nth 0 definition_patterns REps) text) in
  slice_to definitions 20.

(** The loop over the obligation patterns for one sentence: the first
    pattern that matches decides, and the sentence is kept when it is
    longer than 20 characters. *)
Fixpoint try_obligation (sentence : str) (patterns : list regex)
         (obligations : list str) : list str :=
  match patterns with
  | [] => obligations
  | pattern :: more =>
      match re_search true pattern sentence with
      | Some _ =>
          if 20 <? length sentence
          then obligations ++ [preview 200 sentence]
          else obligations
      | None => try_obligation sentence more obligations
      end
  end.

Definition extract_obligations (text : str) : list str :=
  let sentences := re_split false sentence_end text in
  let obligations :=
    fold_left (fun obligations sentence =>
                 let sentence := strip sentence in
                 match sentence with
                 | [] => obligations
                 | _ => try_obligation sentence obligation_patterns obligations
                 end)
              sentences [] in
  slice_to obligations 15.

(** The snippets of one keyword, before the cap. *)
Definition keyword_matches (text keyword : str) : list str :=
  let pattern := re_escape keyword in
  map (fun m =>
         let start := m_start m - 100 in
         let end_ := Nat.min (length text) (m_end m + 100) in
         let context := strip (slice text start end_) in
         re_sub true pattern (fun g => lit "**" ++ g ++ lit "**") context)
      (re_finditer true pattern text).

Definition search_keywords (text : str) (keywords : list str)
  : list (str * list str) :=
  fold_left (fun results keyword =>
               let matches := keyword_matches text keyword in
               match matches with
               | [] => results
               | _ => dict_set keyword (slice_to matches 10) results
               end)
            keywords [].

End TextAnalyzer.

(** ** Sorting

    [list.sort(key=..., reverse=...)] is stable and compares keys with [<]
    only. A stable sort has one result for a given total preorder, and it is
    the one insertion builds: every element is put before the first element
    of the sorted rest that does not have to come before it. *)

Section Sort.
Variables A K : Type.
Variable ltk : K -> K -> bool.
Variable key : A -> K.
Variable reverse : bool.

(** [goes_before y x]: [y] must come before [x] whatever their order in
    the input. *)
Definition goes_before (y x : A) : bool :=
  if reverse then ltk (key x) (key y) else ltk (key y) (key x).

Fixpoint sort_insert (x : A) (l : list A) : list A :=
  match l with
  | [] => [x]
  | y :: t => if goes_before y x then y :: sort_insert x t else x :: l
  end.

Fixpoint py_sort (l : list A) : list A :=
  match l with
  | [] => []
  | x :: t => sort_insert x (py_sort t)
  end.
End Sort.

(** ** summarizer.py *)

Module DocumentSummarizer.

Local Open Scope float_scope.

(** [float(n)] for a count (exact below 2^53). *)
Definition float_of_nat (n : nat) : float :=
  PrimFloat.of_uint63 (Uint63.of_Z (Z.of_nat n)).

(** [float(z)] for a small integer. *)
Definition float_of_Z (z : Z) : float :=
  if (z <? 0)%Z
  then - PrimFloat.of_uint63 (Uint63.of_Z (- z))
  else PrimFloat.of_uint63 (Uint63.of_Z z).

Definition max_summary_sentences : Z := 10.

Definition no_content : str := lit "No content to summarize.".

Definition _split_sentences (text : str) : list str :=
  let sentences := re_split false TextAnalyzer.sentence_end text in
  map strip
      (filter (fun s => match strip s with
                        | [] => false
                        | _ => (20 <? length (strip s))%nat
                        end)
              sentences).

Definition important_keywords : list str :=
  map lit
      [ "shall"; "must"; "agreement"; "party"; "parties"; "obligation";
        "rights"; "liability"; "warranty"; "indemnify"; "breach";
        "termination"; "jurisdiction"; "dispute"; "clause"; "section";
        "payment"; "compensation"; "damages"; "force majeure";
        "confidential" ]%string.

(** A scored sentence: [(sentence, score, original_index)]. *)
Definition scored : Type := str * float * nat.

Definition sentence_of (x : scored) : str := fst (fst x).
Definition score_of (x : scored) : float := snd (fst x).
Definition index_of (x : scored) : nat := snd x.

(** The body of the scoring loop for the sentence at [idx] of [n]. *)
Definition score_sentence (n idx : nat) (sentence : str) : float :=
  let sentence_lower := str_lower sentence in
  let score : Z :=
    fold_left (fun score keyword =>
                 if contains keyword sentence_lower then (score + 2)%Z else score)
              important_keywords 0%Z in
  let score :=
    match re_search false (RPlus a_digit) sentence with
    | Some _ => (score + 1)%Z
    | None => score
    end in
  let score :=
    if contains [TextAnalyzer.quote] sentence then (score + 2)%Z else score in
  let score :=
    if float_of_nat idx <? float_of_nat n * 0.2 then (score + 1)%Z else score in
  let score := if (500 <? length sentence)%nat then (score - 1)%Z else score in
  let position_score := 1.0 - (float_of_nat idx / float_of_nat n) * 0.3 in
  float_of_Z score * position_score.

Definition _score_sentences (sentences : list str) (full_text : str)
  : list scored :=
  map (fun x => (snd x, score_sentence (length sentences) (fst x) (snd x), fst x))
      (enumerate sentences).

Definition summarize (text : str) (max_sentences : option Z) : str :=
  let max_sentences :=
    match max_sentences with
    | None => max_summary_sentences
    | Some k => k
    end in
  let sentences := _split_sentences text in
  match sentences with
  | [] => no_content
  | _ =>
      let scored_sentences := _score_sentences sentences text in
      let scored_sentences := py_sort PrimFloat.ltb score_of true scored_sentences in
      let top_sentences := slice_to scored_sentences max_sentences in
      let top_sentences := py_sort Nat.ltb index_of false top_sentences in
      join (lit " ") (map sentence_of top_sentences)
  end.

Definition critical_terms : list str :=
  map lit
      [ "termination"; "liability"; "warranty"; "indemnification";
        "dispute resolution"; "confidentiality"; "payment terms" ]%string.

(** The bullet U+2022 of the source lies outside the 8-bit characters of
    this model; it stands here as the three bytes of its UTF-8 form. *)
Definition bullet : str := ["226"; "128"; "162"]%char.

Definition generate_key_points (text : str)
           (clauses : list TextAnalyzer.Clause)
           (definitions : list TextAnalyzer.Definition_)
           (obligations : list str) : list str :=
  let key_points : list str := [] in
  let key_points :=
    match clauses with
    | [] => key_points
    | _ => key_points ++
           [lit "Document contains " ++ str_of_nat (length clauses)
                ++ lit " identifiable clauses/sections"]
    end in
  let key_points :=
    match definitions with
    | [] => key_points
    | _ => key_points
           ++ [lit "Found " ++ str_of_nat (length definitions)
                   ++ lit " key definitions"]
           ++ map (fun defn => bullet ++ lit " Defines '"
                                ++ TextAnalyzer.term defn ++ lit "'")
                  (slice_to definitions 3)
    end in
  let key_points :=
    match obligations with
    | [] => key_points
    | _ => key_points
           ++ [lit "Identified " ++ str_of_nat (length obligations)
                   ++ lit " obligation statements"]
           ++ map (fun obl => bullet ++ lit " " ++ slice_to obl 150 ++ lit "...")
                  (slice_to obligations 3)
    end in
  let text_lower := str_lower text in
  let found_terms := filter (fun term => contains term text_lower) critical_terms in
  match found_terms with
  | [] => key_points
  | _ => key_points
         ++ [lit "Critical sections present: " ++ join (lit ", ") found_terms]
  end.

End DocumentSummarizer.

(** ** Exceptions and the file system

    The functions of [document_parser.py] and [legal_analyzer.py] test
    paths, decode files and raise. They run in a monad that carries the
    outside world (what exists, what each decoding library would answer)
    and the log of the accesses made to it. *)

Inductive exn :=
| FileNotFoundError (msg : str)
| ValueError (msg : str)
| RuntimeError (msg : str)
| OtherError (msg : str).     (* any other subclass of [Exception] *)

(** [str(e)] *)
Definition exn_str (e : exn) : str :=
  match e with
  | FileNotFoundError m | ValueError m | RuntimeError m | OtherError m => m
  end.

Inductive access :=
| Probe (path : str)     (* [os.path.exists(path)] *)
| Decode (path : str).   (* the path is handed to the decoder of its format *)

(** What a decoding library answers for a path: its result, or the
    exception it raises. *)
Definition answer (A : Type) : Type := exn + A.

Record World := {
  path_exists : str -> bool;
  (* PyPDF2: the extracted text of each page, in page order *)
  pdf_pages : str -> answer (list str);
  (* python-docx: the text of each paragraph, in document order *)
  docx_paragraphs : str -> answer (list str);
  (* [open(path, 'r', encoding='utf-8').read()] *)
  txt_content : str -> answer str
}.

Definition IO (A : Type) : Type := World -> list access -> answer A * list access.

Definition ret {A} (a : A) : IO A := fun _ log => (inr a, log).

Definition raise {A} (e : exn) : IO A := fun _ log => (inl e, log).

Definition bind {A B} (m : IO A) (k : A -> IO B) : IO B :=
  fun w log =>
    match m w log with
    | (inl e, log') => (inl e, log')
    | (inr a, log') => k a w log'
    end.

(** [try: body / except Exception as e: handler(e)] *)
Definition try_except {A} (body : IO A) (handler : exn -> IO A) : IO A :=
  fun w log =>
    match body w log with
    | (inl e, log') => handler e w log'
    | (inr a, log') => (inr a, log')
    end.

Notation "x <- m ;; k" := (bind m (fun x => k))
  (at level 61, m at next level, right associativity).

(** A function run from an empty log. *)
Definition run {A} (m : IO A) (w : World) : answer A * list access := m w [].
Definition result {A} (m : IO A) (w : World) : answer A := fst (run m w).
Definition accesses {A} (m : IO A) (w : World) : list access := snd (run m w).

Definition os_path_exists (path : str) : IO bool :=
  fun w log => (inr (path_exists w path), log ++ [Probe path]).

(** A decoder applied to a path: the call is logged, then the library
    answers. The log records the call of the decoder; what the decoding
    library opens in turn is not part of the model. *)
Definition decode_with {A} (lib : World -> str -> answer A) (path : str) : IO A :=
  fun w log => (lib w path, log ++ [Decode path]).

(** [str.rfind] of a character; -1 when it does not occur. *)
Fixpoint rfind_from (c : ascii) (s : str) (i : Z) (found : Z) : Z :=
  match s with
  | [] => found
  | x :: t => rfind_from c t (i + 1)%Z (if Ascii.eqb x c then i else found)
  end.

Definition rfind (c : ascii) (s : str) : Z := rfind_from c s 0%Z (-1)%Z.

(** The loop of [os.path.splitext] over the leading characters of the
    file name: a character other than the dot makes the last dot the start
    of an extension. *)
Fixpoint has_non_dot (s : str) : bool :=
  match s with
  | [] => false
  | c :: t => if negb (Ascii.eqb c ".") then true else has_non_dot t
  end.

(** [os.path.splitext] of [posixpath]: separator [/], extension
    separator [.]; leading dots of the file name start no extension. *)
Definition splitext (p : str) : str * str :=
  let sepIndex := rfind "/" p in
  let dotIndex := rfind "." p in
  if (sepIndex <? dotIndex)%Z
     && has_non_dot (slice p (Z.to_nat (sepIndex + 1)) (Z.to_nat dotIndex))
  then (firstn (Z.to_nat dotIndex) p, skipn (Z.to_nat dotIndex) p)
  else (p, []).

(** ** document_parser.py *)

Module DocumentParser.

Definition SUPPORTED_FORMATS : list str := [lit ".pdf"; lit ".docx"; lit ".txt"].

Definition _parse_pdf (file_path : str) : IO str :=
  try_except
    (text <- decode_with pdf_pages file_path ;;
     ret (join [TextAnalyzer.newline] text))
    (fun e => raise (RuntimeError (lit "Error parsing PDF: " ++ exn_str e))).

Definition _parse_docx (file_path : str) : IO str :=
  try_except
    (paragraphs <- decode_with docx_paragraphs file_path ;;
     let text :=
       filter (fun paragraph => match strip paragraph with
                                | [] => false
                                | _ => true
                                end)
              paragraphs in
     ret (join [TextAnalyzer.newline] text))
    (fun e => raise (RuntimeError (lit "Error parsing DOCX: " ++ exn_str e))).

Definition _parse_txt (file_path : str) : IO str :=
  try_except
    (decode_with txt_content file_path)
    (fun e => raise (RuntimeError (lit "Error parsing TXT: " ++ exn_str e))).

(** The extension that [parse] tests. *)
Definition extension (file_path : str) : str :=
  str_lower (snd (splitext file_path)).

(** The last test of the source's chain, [elif ext == '.txt'], holds
    whenever it is reached: [ext] has passed the membership test and is
    neither of the other two formats. It is the final branch here. *)
Definition parse (file_path : str) : IO str :=
  found <- os_path_exists file_path ;;
  if negb found
  then raise (FileNotFoundError (lit "File not found: " ++ file_path))
  else
    let ext := extension file_path in
    if negb (str_mem ext SUPPORTED_FORMATS)
    then raise (ValueError (lit "Unsupported file format: " ++ ext
                                ++ lit ". Supported formats: "
                                ++ join (lit ", ") SUPPORTED_FORMATS))
    else
      try_except
        (if str_eqb ext (lit ".pdf") then _parse_pdf file_path
         else if str_eqb ext (lit ".docx") then _parse_docx file_path
         else _parse_txt file_path)
        (fun e => raise (RuntimeError (lit "Error parsing document: " ++ exn_str e))).

End DocumentParser.

(** ** legal_analyzer.py *)

Module LegalDocumentAnalyzer.

Record AnalysisResult := {
  success : bool;
  file_path : str;
  text_length : nat;
  word_count : nat;
  clauses : list TextAnalyzer.Clause;
  definitions : list TextAnalyzer.Definition_;
  obligations : list str;
  summary : str;
  key_points : list str;
  full_text : str
}.

Record SearchResult := {
  s_success : bool;
  s_file_path : str;
  keywords : list str;
  results : list (str * list str);
  total_matches : nat
}.

Definition too_short : str := lit "Document appears to be empty or too short".

Definition analyze_document (file_path : str) : IO AnalysisResult :=
  try_except
    (text <- DocumentParser.parse file_path ;;
     if match text with [] => true | _ => false end
        || (length (strip text) <? 50)
     then raise (ValueError too_short)
     else
       let clauses := TextAnalyzer.extract_clauses text in
       let definitions := TextAnalyzer.extract_definitions text in
       let obligations := TextAnalyzer.extract_obligations text in
       let summary := DocumentSummarizer.summarize text None in
       let key_points :=
         DocumentSummarizer.generate_key_points text clauses definitions
                                                obligations in
       ret {| success := true;
              file_path := file_path;
              text_length := length text;
              word_count := length (split_ws text);
              clauses := clauses;
              definitions := definitions;
              obligations := obligations;
              summary := summary;
              key_points := key_points;
              full_text := slice_to text 1000 |})
    (fun e =>
       match e with
       | ValueError _ | FileNotFoundError _ | RuntimeError _ => raise e
       | OtherError _ =>
           raise (RuntimeError (lit "Unexpected error during analysis: "
                                    ++ exn_str e))
       end).

Definition search_document (file_path : str) (keywords : list str)
  : IO SearchResult :=
  try_except
    (text <- DocumentParser.parse file_path ;;
     let search_results := TextAnalyzer.search_keywords text keywords in
     ret {| s_success := true;
            s_file_path := file_path;
            keywords := keywords;
            results := search_results;
            total_matches :=
              fold_left Nat.add (map (fun kv => length (snd kv)) search_results) 0 |})
    (fun e => raise (RuntimeError (lit "Error searching document: " ++ exn_str e))).

Definition get_supported_formats : list str := DocumentParser.SUPPORTED_FORMATS.

End LegalDocumentAnalyzer.

(** ** The front ends: app.py and cli.py

    Of the two front ends the pure parts are embedded: the test on the
    name of an uploaded file and the reading of the keyword argument. *)

(** [s.rsplit(sep, 1)]: one split, at the last separator. *)
Definition rsplit1 (sep : ascii) (s : str) : list str :=
  let i := rfind sep s in
  if (i <? 0)%Z then [s]
  else [firstn (Z.to_nat i) s; skipn (Z.to_nat i + 1) s].

Module App.

Definition allowed_file (filename : str) : bool :=
  contains (lit ".") filename
  && str_mem (str_lower (nth 1 (rsplit1 "." filename) []))
             [lit "pdf"; lit "docx"; lit "txt"].

End App.

(** [[k.strip() for k in s.split(',') if k.strip()]], the keyword list
    that both front ends hand to [search_document]. *)
Definition keywords_of_argument (s : str) : list str :=
  map strip
      (filter (fun k => match strip k with [] => false | _ => true end)
              (split_char "," s)).

(** A world in which every path exists and no decoder can read its file. *)
Definition unreadable_world : World :=
  {| path_exists := fun _ => true;
     pdf_pages := fun _ => inl (OtherError (lit "EOF marker not found"));
     docx_paragraphs := fun _ => inl (OtherError (lit "Package not found"));
     txt_content := fun _ => inl (OtherError (lit "invalid start byte")) |}.

(** The decoder of the format of [p] raises [e]; [label] is the name of
    the format in the messages of the parser. *)
Definition decoder_raises (w : World) (p : str) (e : exn) (label : str) : Prop :=
  (DocumentParser.extension p = lit ".pdf" /\ pdf_pages w p = inl e
   /\ label = lit "PDF") \/
  (DocumentParser.extension p = lit ".docx" /\ docx_paragraphs w p = inl e
   /\ label = lit "DOCX") \/
  (DocumentParser.extension p = lit ".txt" /\ txt_content w p = inl e
   /\ label = lit "TXT").

(** ** Order of appearance

    [subseq l1 l2]: the elements of [l1] are elements of [l2], met in the
    order in which [l2] has them. *)

Inductive subseq {A : Type} : list A -> list A -> Prop :=
| subseq_nil : forall l, subseq [] l
| subseq_skip : forall x l1 l2, subseq l1 l2 -> subseq l1 (x :: l2)
| subseq_take : forall x l1 l2, subseq l1 l2 -> subseq (x :: l1) (x :: l2).

(** What the scanner finds at one position: nothing inside the last
    match; otherwise the match of the attempt, followed after an empty
    match by the match of the second attempt. *)
Definition scan_found (ic : bool) (r : regex) (prev : option ascii) (rest : str)
           (pos resume : nat) : list rmatch :=
  if pos <? resume then []
  else match match_at ic r prev rest pos false with
       | None => []
       | Some m =>
           if m_end m =? pos
           then m :: match match_at ic r prev rest pos true with
                     | Some m' => [m']
                     | None => []
                     end
           else [m]
       end.


(** One turn of the loop of [search_keywords]. *)
Definition search_step (text : str) (results : list (str * list str))
           (keyword : str) : list (str * list str) :=
  match TextAnalyzer.keyword_matches text keyword with
  | [] => results
  | _ :: _ =>
      dict_set keyword (slice_to (TextAnalyzer.keyword_matches text keyword) 10)
               results
  end.

(** The number of snippets that a search for [keywords] reports under
    [keyword]: the length of its entry in the mapping, 0 without entry. *)
Definition match_count (text : str) (keywords : list str) (keyword : str) : nat :=
  match dict_get keyword (TextAnalyzer.search_keywords text keywords) with
  | Some snippets => length snippets
  | None => 0
  end.

(** ** What a pattern can spell

    [spells ic r pos w mk mk']: starting at position [pos], the pattern [r]
    can consume the characters [w], and doing so turns the marks [mk] into
    [mk']. The relation leaves the tests of the anchors aside: it bounds
    from above what the matcher accepts, which is what the statements on
    the captured groups need. *)

Inductive spells (ic : bool) : regex -> nat -> str -> marks -> marks -> Prop :=
| sp_eps : forall pos mk, spells ic REps pos [] mk mk
| sp_atom : forall a c pos mk,
    atom_match ic a c = true -> spells ic (RAtom a) pos [c] mk mk
| sp_star : forall a w pos mk,
    Forall (fun c => atom_match ic a c = true) w -> spells ic (RStar a) pos w mk mk
| sp_plus : forall a c w pos mk,
    atom_match ic a c = true ->
    Forall (fun c => atom_match ic a c = true) w ->
    spells ic (RPlus a) pos (c :: w) mk mk
| sp_bol : forall pos mk, spells ic RBol pos [] mk mk
| sp_eol : forall pos mk, spells ic REol pos [] mk mk
| sp_wordb : forall pos mk, spells ic RWordB pos [] mk mk
| sp_seq : forall r1 r2 w1 w2 pos mk mk1 mk2,
    spells ic r1 pos w1 mk mk1 ->
    spells ic r2 (pos + length w1) w2 mk1 mk2 ->
    spells ic (RSeq r1 r2) pos (w1 ++ w2) mk mk2
| sp_alt_l : forall r1 r2 w pos mk mk1,
    spells ic r1 pos w mk mk1 -> spells ic (RAlt r1 r2) pos w mk mk1
| sp_alt_r : forall r1 r2 w pos mk mk1,
    spells ic r2 pos w mk mk1 -> spells ic (RAlt r1 r2) pos w mk mk1
| sp_group : forall n r w pos mk mk1,
    spells ic r pos w mk mk1 ->
    spells ic (RGroup n r) pos w mk (close_group n pos (pos + length w) mk1).

(** The character before the position, once [w] has been consumed. *)
Definition char_after (prev : option ascii) (w : str) : option ascii :=
  fold_left (fun _ c => Some c) w prev.

Fixpoint has_group (r : regex) : bool :=
  match r with
  | RGroup _ _ => true
  | RSeq r1 r2 | RAlt r1 r2 => has_group r1 || has_group r2
  | _ => false
  end.

(** A clause number as the patterns capture it: a digit, then digits and
    dots. *)
Definition is_numeric_id (s : str) : bool :=
  match s with
  | [] => false
  | d :: t => is_digit d && forallb (fun c => is_digit c || Ascii.eqb c ".") t
  end.

(** ** The clause rule, as the specification words it

    The two pattern families are tried in a fixed order, labeled markers
    first, and the first that matches a line gives the clause of the line;
    a line gives at most one clause. *)

Definition first_marker (line : str) : option rmatch :=
  match re_search true TextAnalyzer.labeled_marker line with
  | Some m => Some m
  | None => re_search true TextAnalyzer.numeric_marker line
  end.

(** What line [i] adds to the clauses found so far. *)
Definition line_clauses (lines : list str) (i : nat) (line : str)
           (clauses : list TextAnalyzer.Clause) : list TextAnalyzer.Clause :=
  match first_marker line with
  | Some m => [TextAnalyzer.make_clause lines i line m clauses]
  | None => []
  end.

(** What each of the numbered lines adds, in turn. *)
Fixpoint contributions (lines : list str) (numbered : list (nat * str))
         (clauses : list TextAnalyzer.Clause) : list (list TextAnalyzer.Clause) :=
  match numbered with
  | [] => []
  | il :: rest =>
      let added := line_clauses lines (fst il) (snd il) clauses in
      added :: contributions lines rest (clauses ++ added)
  end.

(** Where a clause number comes from: group 1 of the match of a clause
    pattern on one of the lines, a numeric identifier. *)
Definition captured_number (lines : list str) (c : TextAnalyzer.Clause) : Prop :=
  exists line pattern m,
    In line lines /\
    In pattern TextAnalyzer.clause_patterns /\
    re_search true pattern line = Some m /\
    TextAnalyzer.number c = group line m 1 /\
    is_numeric_id (TextAnalyzer.number c) = true.

(** ** The selection of the summary *)

(** The keys of a list never decrease. *)
Definition key_le {A} (key : A -> nat) (a b : A) : Prop := key a <= key b.

(** A scored sentence without its score: the index and the sentence. *)
Definition tag (x : DocumentSummarizer.scored) : nat * str :=
  (DocumentSummarizer.index_of x, DocumentSummarizer.sentence_of x).

(** The two sorts and the slice between them, as [summarize] chains them. *)
Definition selection (sentences : list str) (text : str) (k : Z)
  : list DocumentSummarizer.scored :=
  py_sort Nat.ltb DocumentSummarizer.index_of false
          (slice_to (py_sort PrimFloat.ltb DocumentSummarizer.score_of true
                             (DocumentSummarizer._score_sentences sentences text)) k).

(** ** Files that decode

    [decodes_to w p text]: in the world [w] the path [p] exists, its
    extension is one of the supported three, and the decoder of that format
    answers; [text] is what the parser makes of the answer. *)

Definition decodes_to (w : World) (p text : str) : Prop :=
  path_exists w p = true /\
  ((DocumentParser.extension p = lit ".pdf" /\
    exists pages,
      pdf_pages w p = inr pages /\ text = join [TextAnalyzer.newline] pages) \/
   (DocumentParser.extension p = lit ".docx" /\
    exists paragraphs,
      docx_paragraphs w p = inr paragraphs /\
      text = join [TextAnalyzer.newline]
                  (filter (fun paragraph => match strip paragraph with
                                            | [] => false
                                            | _ => true
                                            end)
                          paragraphs)) \/
   (DocumentParser.extension p = lit ".txt" /\ txt_content w p = inr text)).

(** ** Sample inputs

    The inputs at which the statements below are instantiated. *)

Definition contract_text : str :=
  lit "The Supplier shall deliver the goods by 1 March. The Buyer must pay the agreed price within 30 days.".

(** The text of the specification's examples. *)
Definition agreement_text : str :=
  lit "CONFIDENTIALITY AGREEMENT" ++ [TextAnalyzer.newline; TextAnalyzer.newline]
  ++ lit "DEFINITIONS" ++ [TextAnalyzer.newline]
  ++ [TextAnalyzer.quote] ++ lit "Confidential Information" ++ [TextAnalyzer.quote]
  ++ lit " means any information disclosed by one party to the other."
  ++ [TextAnalyzer.newline]
  ++ lit "CLAUSE 1: The Receiving Party shall maintain confidentiality.".

(** A file system with four plain files and no readable PDF or DOCX. *)
Definition sample_world : World :=
  {| path_exists := fun p =>
       str_mem p [lit "notes.xyz"; lit "short.txt"; lit "contract.txt";
                  lit "empty.txt"];
     pdf_pages := fun _ => inl (OtherError (lit "EOF marker not found"));
     docx_paragraphs := fun _ => inl (OtherError (lit "Package not found"));
     txt_content := fun p =>
       if str_eqb p (lit "short.txt") then inr (lit "Short")
       else if str_eqb p (lit "contract.txt") then inr contract_text
       else inr [] |}.

(** The kind of a failure, as the specification names it. *)
Definition fails_unsupported_format {A} (r : answer A) : Prop :=
  exists msg, r = inl (ValueError msg).

(** * Properties *)

Unset Implicit Arguments.

(** ** The model at work

    The embedding computes: the examples of the specification and of the
    test suite, evaluated. *)

Example splitext_examples :
  map splitext [lit "a.txt"; lit ".bashrc"; lit "dir.d/file"; lit "x/..a.TXT"]
  = [(lit "a", lit ".txt"); (lit ".bashrc", []); (lit "dir.d/file", []);
     (lit "x/..a", lit ".TXT")].
Proof. vm_compute. reflexivity. Qed.

Example finditer_empty_pattern :
  map (fun m => (m_start m, m_end m)) (re_finditer true (re_escape []) (lit "abc"))
  = [(0, 0); (1, 1); (2, 2); (3, 3)].
Proof. vm_compute. reflexivity. Qed.

Example split_on_sentence_ends :
  re_split false TextAnalyzer.sentence_end (lit "Hello. World!? yes.")
  = [lit "Hello"; lit " World"; lit " yes"; []].
Proof. vm_compute. reflexivity. Qed.

Example labeled_marker_ignores_case :
  option_map (fun m => group (lit "  section 2.1.3: x") m 1)
             (re_search true TextAnalyzer.labeled_marker (lit "  section 2.1.3: x"))
  = Some (lit "2.1.3").
Proof. vm_compute. reflexivity. Qed.

Example agreement_clauses :
  TextAnalyzer.extract_clauses agreement_text
  = [ {| TextAnalyzer.number := lit "1";
         TextAnalyzer.text :=
           lit "CLAUSE 1: The Receiving Party shall maintain confidentiality." |} ].
Proof. vm_compute. reflexivity. Qed.

Example agreement_definitions :
  map TextAnalyzer.term (TextAnalyzer.extract_definitions agreement_text)
  = [lit "Confidential Information"].
Proof. vm_compute. reflexivity. Qed.

Example agreement_obligations :
  TextAnalyzer.extract_obligations agreement_text
  = [lit "CLAUSE 1: The Receiving Party shall maintain confidentiality"].
Proof. vm_compute. reflexivity. Qed.

Example agreement_search :
  map (fun kv => (fst kv, length (snd kv)))
      (TextAnalyzer.search_keywords agreement_text [lit "confidentiality"])
  = [(lit "confidentiality", 2)].
Proof. vm_compute. reflexivity. Qed.

Example search_without_keywords :
  TextAnalyzer.search_keywords agreement_text [] = [].
Proof. reflexivity. Qed.

Example contract_summary_of_one :
  DocumentSummarizer.summarize contract_text (Some 1%Z)
  = lit "The Supplier shall deliver the goods by 1 March".
Proof. vm_compute. reflexivity. Qed.

Example short_file_is_rejected :
  result (LegalDocumentAnalyzer.analyze_document (lit "short.txt")) sample_world
  = inl (ValueError (lit "Document appears to be empty or too short")).
Proof. vm_compute. reflexivity. Qed.

Example unknown_format_reads_nothing :
  run (LegalDocumentAnalyzer.search_document (lit "notes.xyz") [lit "party"])
      sample_world
  = (inl (RuntimeError
            (lit "Error searching document: Unsupported file format: .xyz. Supported formats: .pdf, .docx, .txt")),
     [Probe (lit "notes.xyz")]).
Proof. vm_compute. reflexivity. Qed.

(** ** Strings *)

Lemma str_eqb_eq (a b : str) : str_eqb a b = true <-> a = b.
Proof.
  unfold str_eqb. destruct (list_eq_dec ascii_dec a b); split; congruence.
Qed.

(** ** Slices and strings *)

Lemma slice_to_nonneg {A} (l : list A) (k : Z) :
  (0 <= k)%Z -> slice_to l k = firstn (Z.to_nat k) l.
Proof.
  intros Hk. unfold slice_to.
  destruct (Z.ltb_spec k 0); [lia | reflexivity].
Qed.

Lemma slice_to_length_le {A} (l : list A) (k : Z) :
  (0 <= k)%Z -> length (slice_to l k) <= Z.to_nat k.
Proof.
  intros Hk. rewrite slice_to_nonneg by assumption. apply firstn_le_length.
Qed.

Lemma slice_to_length_le_all {A} (l : list A) (k : Z) :
  length (slice_to l k) <= length l.
Proof.
  unfold slice_to. destruct (k <? 0)%Z; rewrite length_firstn; lia.
Qed.

Lemma drop_while_all {A} (p : A -> bool) (l : list A) :
  forallb p l = true -> drop_while p l = [].
Proof.
  induction l as [|x t IH]; simpl; [reflexivity|].
  intros H. apply andb_true_iff in H as [Hx Ht]. rewrite Hx. auto.
Qed.

(** A string that [strip] does not empty has a character that is not
    white space. *)
Lemma strip_nonempty_has_word_char (s : str) :
  strip s <> [] -> forallb is_space s = false.
Proof.
  intros H. destruct (forallb is_space s) eqn:E; [|reflexivity].
  exfalso. apply H. unfold strip, rstrip, lstrip.
  rewrite (drop_while_all _ _ E). reflexivity.
Qed.

Lemma split_ws_from_nonempty (s w : str) :
  w <> [] \/ forallb is_space s = false -> split_ws_from w s <> [].
Proof.
  revert w. induction s as [|c t IH]; intros w H; simpl.
  - destruct H as [H|H]; [|discriminate]. destruct w; congruence.
  - destruct (is_space c) eqn:Ec.
    + destruct w as [|a w'].
      * apply IH. right. destruct H as [H|H]; [congruence|].
        simpl in H. rewrite Ec in H. exact H.
      * discriminate.
    + apply IH. left. discriminate.
Qed.

(** [len(text.split()) > 0] as soon as [text.strip()] is not empty. *)
Lemma split_ws_of_nonblank (s : str) :
  strip s <> [] -> 0 < length (split_ws s).
Proof.
  intros H. apply strip_nonempty_has_word_char in H.
  pose proof (split_ws_from_nonempty s [] (or_intror H)) as Hne.
  unfold split_ws. destruct (split_ws_from [] s); [congruence | simpl; lia].
Qed.

(** ** Dictionaries *)

Lemma dict_set_Forall {V} (P : str * V -> Prop) (k : str) (v : V) d :
  (forall k', P (k', v)) -> Forall P d -> Forall P (dict_set k v d).
Proof.
  intros Hv. induction 1 as [|[k' v'] t Hx Ht IH]; simpl.
  - constructor; [apply Hv | constructor].
  - destruct (str_eqb k' k); constructor; auto.
Qed.

Lemma dict_get_set_same {V} (k : str) (v : V) d :
  dict_get k (dict_set k v d) = Some v.
Proof.
  induction d as [|[k' v'] t IH]; simpl.
  - destruct (str_eqb k k) eqn:E; [reflexivity|].
    exfalso. assert (str_eqb k k = true) by (apply str_eqb_eq; reflexivity). congruence.
  - destruct (str_eqb k' k) eqn:E; simpl; rewrite E; auto.
Qed.

(** ** The size caps of the extractors *)

Section Caps.
Import TextAnalyzer.

Lemma search_keywords_capped (text : str) (keywords : list str) :
  Forall (fun kv => length (snd kv) <= 10) (search_keywords text keywords).
Proof.
  unfold search_keywords.
  assert (G : forall ks acc,
             Forall (fun kv : str * list str => length (snd kv) <= 10) acc ->
             Forall (fun kv : str * list str => length (snd kv) <= 10)
               (fold_left
                  (fun results keyword =>
                     match keyword_matches text keyword with
                     | [] => results
                     | _ :: _ =>
                         dict_set keyword
                           (slice_to (keyword_matches text keyword) 10) results
                     end) ks acc)).
  { induction ks as [|k ks IH]; intros acc Hacc; simpl; [assumption|].
    apply IH. destruct (keyword_matches text k) eqn:E; [assumption|].
    apply dict_set_Forall; [|assumption].
    intros k'. simpl. apply (slice_to_length_le (s :: l) 10%Z). lia. }
  apply G. constructor.
Qed.

Lemma extract_definitions_capped (text : str) :
  length (extract_definitions text) <= 20.
Proof. unfold extract_definitions. apply (slice_to_length_le _ 20%Z). lia. Qed.

Lemma extract_obligations_capped (text : str) :
  length (extract_obligations text) <= 15.
Proof. unfold extract_obligations. apply (slice_to_length_le _ 15%Z). lia. Qed.
End Caps.

(** ** The parser and the orchestrator *)

Section Orchestrator.
Import DocumentParser LegalDocumentAnalyzer.

Lemma parse_missing (w : World) (p : str) (log : list access) :
  path_exists w p = false ->
  parse p w log
  = (inl (FileNotFoundError (lit "File not found: " ++ p)), log ++ [Probe p]).
Proof.
  intros H. unfold parse, bind, os_path_exists. rewrite H. reflexivity.
Qed.

Lemma parse_unsupported (w : World) (p : str) (log : list access) :
  path_exists w p = true ->
  str_mem (extension p) SUPPORTED_FORMATS = false ->
  parse p w log
  = (inl (ValueError (lit "Unsupported file format: " ++ extension p
                          ++ lit ". Supported formats: "
                          ++ join (lit ", ") SUPPORTED_FORMATS)),
     log ++ [Probe p]).
Proof.
  intros He Hx. unfold parse, bind, os_path_exists. rewrite He.
  cbv beta iota zeta. change (negb true) with false. cbv iota.
  rewrite Hx. reflexivity.
Qed.

(** C2. For every path that does not resolve to an existing file,
    [analyze_document] fails with [FileNotFoundError], whatever the
    extension of the path. *)
Theorem analyze_missing_path_is_not_found (w : World) (p : str) :
  path_exists w p = false ->
  result (analyze_document p) w
  = inl (FileNotFoundError (lit "File not found: " ++ p)).
Proof.
  intros H. unfold result, run, analyze_document, try_except, bind.
  rewrite (parse_missing w p [] H). reflexivity.
Qed.

Lemma analyze_missing_path_is_not_found_witness :
  path_exists sample_world (lit "missing.xyz") = false /\
  result (analyze_document (lit "missing.xyz")) sample_world
  = inl (FileNotFoundError (lit "File not found: missing.xyz")).
Proof.
  split; [reflexivity|].
  apply (analyze_missing_path_is_not_found sample_world (lit "missing.xyz")).
  reflexivity.
Defined.

(** C1, as stated, fails twice. A path with an unsupported extension
    that does not exist is answered with [FileNotFoundError] by
    [analyze_document]: the existence test comes first. And for a path
    that exists, [search_document] turns the [ValueError] of the parser
    into a [RuntimeError], as it does with every failure. *)
Lemma unsupported_extension_not_always_value_error :
  ~ (forall (w : World) (p : str),
        str_mem (extension p) SUPPORTED_FORMATS = false ->
        fails_unsupported_format (result (analyze_document p) w)) /\
  ~ (forall (w : World) (p : str) (keywords : list str),
        path_exists w p = true ->
        str_mem (extension p) SUPPORTED_FORMATS = false ->
        fails_unsupported_format (result (search_document p keywords) w)).
Proof.
  split; intros H.
  - destruct (H sample_world (lit "missing.xyz") eq_refl) as [msg Hm].
    unfold result, run, analyze_document, try_except, bind in Hm.
    rewrite (parse_missing sample_world (lit "missing.xyz") [] eq_refl) in Hm.
    discriminate Hm.
  - destruct (H sample_world (lit "notes.xyz") [] eq_refl eq_refl) as [msg Hm].
    unfold result, run, search_document, try_except, bind in Hm.
    rewrite (parse_unsupported sample_world (lit "notes.xyz") [] eq_refl eq_refl) in Hm.
    discriminate Hm.
Qed.

(** C1, amended. For every existing path whose extension is not one of
    [.pdf], [.docx], [.txt] (compared in lower case), [analyze_document]
    fails with the [ValueError] of the unsupported format, and
    [search_document] fails with a [RuntimeError] that carries the same
    message; in both, the only access to the file system is the existence
    test: no content is read or decoded. *)
Theorem unsupported_extension_rejected_before_reading
        (w : World) (p : str) (keywords : list str) :
  path_exists w p = true ->
  str_mem (extension p) SUPPORTED_FORMATS = false ->
  let msg := lit "Unsupported file format: " ++ extension p
             ++ lit ". Supported formats: .pdf, .docx, .txt" in
  result (analyze_document p) w = inl (ValueError msg) /\
  accesses (analyze_document p) w = [Probe p] /\
  result (search_document p keywords) w
  = inl (RuntimeError (lit "Error searching document: " ++ msg)) /\
  accesses (search_document p keywords) w = [Probe p].
Proof.
  intros He Hx msg.
  unfold result, accesses, run, analyze_document, search_document, try_except, bind.
  rewrite (parse_unsupported w p [] He Hx). repeat split.
Qed.

Lemma unsupported_extension_rejected_before_reading_witness :
  path_exists sample_world (lit "notes.xyz") = true /\
  str_mem (extension (lit "notes.xyz")) SUPPORTED_FORMATS = false /\
  result (analyze_document (lit "notes.xyz")) sample_world
  = inl (ValueError
           (lit "Unsupported file format: .xyz. Supported formats: .pdf, .docx, .txt")) /\
  accesses (search_document (lit "notes.xyz") [lit "party"]) sample_world
  = [Probe (lit "notes.xyz")].
Proof.
  pose proof (unsupported_extension_rejected_before_reading
                sample_world (lit "notes.xyz") [lit "party"] eq_refl eq_refl) as H.
  cbv zeta in H. destruct H as (Ha & _ & _ & Hs).
  split; [reflexivity|]. split; [reflexivity|]. split; [exact Ha | exact Hs].
Defined.

Lemma parse_result_run (w : World) (p text : str) :
  result (parse p) w = inr text ->
  exists log, parse p w [] = (inr text, log).
Proof.
  unfold result, run. destruct (parse p w []) as [a log]. simpl.
  intros ->. exists log. reflexivity.
Qed.

Lemma fold_left_add_from (l : list nat) (a : nat) :
  fold_left Nat.add l a = a + list_sum l.
Proof.
  revert a. induction l as [|x t IH]; intros a; simpl; [lia|].
  rewrite IH. lia.
Qed.

(** The loop [sum(len(m) for m in d.values())] is the sum of the list. *)
Lemma fold_left_add_sum (l : list nat) : fold_left Nat.add l 0 = list_sum l.
Proof. apply fold_left_add_from. Qed.

Lemma strip_nil : strip [] = [].
Proof. reflexivity. Qed.

(** A file that decodes is parsed into its text, after the existence test
    and one decoding. *)
Lemma parse_decodes (w : World) (p text : str) (log : list access) :
  decodes_to w p text ->
  parse p w log = (inr text, (log ++ [Probe p]) ++ [Decode p]).
Proof.
  intros [He Hd]. unfold parse, bind, os_path_exists. rewrite He.
  cbv beta iota zeta. change (negb true) with false. cbv iota.
  destruct Hd as [[Hx (pages & Hp & ->)]|[[Hx (paragraphs & Hp & ->)]|[Hx Hp]]];
    rewrite Hx.
  - change (str_mem (lit ".pdf") SUPPORTED_FORMATS) with true.
    change (str_eqb (lit ".pdf") (lit ".pdf")) with true. cbv iota beta.
    unfold _parse_pdf. unfold try_except, bind, decode_with, ret.
    cbv beta iota delta [negb]. rewrite Hp. reflexivity.
  - change (str_mem (lit ".docx") SUPPORTED_FORMATS) with true.
    change (str_eqb (lit ".docx") (lit ".pdf")) with false.
    change (str_eqb (lit ".docx") (lit ".docx")) with true. cbv iota beta.
    unfold _parse_docx. unfold try_except, bind, decode_with, ret.
    cbv beta iota delta [negb]. rewrite Hp. reflexivity.
  - change (str_mem (lit ".txt") SUPPORTED_FORMATS) with true.
    change (str_eqb (lit ".txt") (lit ".pdf")) with false.
    change (str_eqb (lit ".txt") (lit ".docx")) with false. cbv iota beta.
    unfold _parse_txt. unfold try_except, decode_with.
    cbv beta iota delta [negb]. rewrite Hp. reflexivity.
Qed.

Lemma decodes_result (w : World) (p text : str) :
  decodes_to w p text -> result (parse p) w = inr text.
Proof.
  intros H. unfold result, run. rewrite (parse_decodes w p text [] H). reflexivity.
Qed.

Lemma analyze_on_parsed_text (w : World) (p text : str) :
  result (parse p) w = inr text ->
  50 <= length (strip text) ->
  exists r,
    result (analyze_document p) w = inr r /\
    success r = true /\
    0 < word_count r /\
    text_length r = length text.
Proof.
  intros Hp Hlen. destruct (parse_result_run w p text Hp) as [log E].
  assert (Hne : strip text <> []) by (intros Hs; rewrite Hs in Hlen; simpl in Hlen; lia).
  assert (Hgate : (match text with [] => true | _ => false end
                   || (length (strip text) <? 50)) = false).
  { apply orb_false_iff. split.
    - destruct text; [exfalso; apply Hne; apply strip_nil | reflexivity].
    - apply Nat.ltb_ge. exact Hlen. }
  unfold result, run, analyze_document, try_except, bind. rewrite E.
  rewrite Hgate. unfold ret. cbv beta iota. eexists. split; [reflexivity|].
  cbn [success word_count text_length fst].
  repeat split. apply split_ws_of_nonblank. exact Hne.
Qed.

(** C4. For every file that exists, has a supported extension and decodes
    to a text of at least 50 characters once stripped, [analyze_document]
    returns a record with [success = True], a positive [word_count] and
    [text_length] equal to the length of the decoded text. *)
Theorem analyze_succeeds_on_long_enough_text (w : World) (p text : str) :
  decodes_to w p text ->
  50 <= length (strip text) ->
  exists r,
    result (analyze_document p) w = inr r /\
    success r = true /\
    0 < word_count r /\
    text_length r = length text.
Proof.
  intros Hd Hlen. apply analyze_on_parsed_text; [|exact Hlen].
  apply decodes_result. exact Hd.
Qed.

Lemma contract_decodes : decodes_to sample_world (lit "contract.txt") contract_text.
Proof.
  split; [reflexivity|]. right. right. split; reflexivity.
Qed.

Lemma analyze_succeeds_on_long_enough_text_witness :
  decodes_to sample_world (lit "contract.txt") contract_text /\
  50 <= length (strip contract_text) /\
  exists r,
    result (analyze_document (lit "contract.txt")) sample_world = inr r /\
    success r = true /\
    0 < word_count r /\
    text_length r = length contract_text.
Proof.
  assert (Hl : 50 <= length (strip contract_text))
    by (apply Nat.leb_le; vm_compute; reflexivity).
  split; [exact contract_decodes|]. split; [exact Hl|].
  exact (analyze_succeeds_on_long_enough_text sample_world (lit "contract.txt")
           contract_text contract_decodes Hl).
Defined.

Lemma keyword_matches_empty_text (keyword : str) :
  keyword <> [] -> TextAnalyzer.keyword_matches [] keyword = [].
Proof.
  destruct keyword as [|c t]; [congruence|]. intros _. reflexivity.
Qed.

Lemma search_keywords_empty_text (keywords : list str) :
  Forall (fun k => k <> []) keywords ->
  TextAnalyzer.search_keywords [] keywords = [].
Proof.
  unfold TextAnalyzer.search_keywords.
  induction 1 as [|k ks Hk Hks IH]; simpl; [reflexivity|].
  rewrite (keyword_matches_empty_text k Hk). exact IH.
Qed.

Lemma short_decodes : decodes_to sample_world (lit "short.txt") (lit "Short").
Proof.
  split; [reflexivity|]. right. right. split; reflexivity.
Qed.

(** C10, as stated, fails: a text shorter than 50 characters can contain a
    keyword, and then the mapping is not empty. *)
Lemma short_text_search_is_not_always_empty :
  ~ (forall (w : World) (p text : str) (keywords : list str),
        decodes_to w p text ->
        length (strip text) < 50 ->
        exists r,
          result (search_document p keywords) w = inr r /\
          s_success r = true /\
          results r = [] /\
          total_matches r = 0).
Proof.
  intros H.
  destruct (H sample_world (lit "short.txt") (lit "Short") [lit "short"])
    as (r & Hr & _ & Hres & _).
  - exact short_decodes.
  - apply Nat.ltb_lt. vm_compute. reflexivity.
  - vm_compute in Hr. inversion Hr as [Hr']. rewrite <- Hr' in Hres.
    discriminate Hres.
Qed.

Lemma search_on_parsed_text (w : World) (p text : str) (keywords : list str) :
  result (parse p) w = inr text ->
  exists r,
    result (search_document p keywords) w = inr r /\
    s_success r = true /\
    results r = TextAnalyzer.search_keywords text keywords /\
    total_matches r = list_sum (map (fun kv => length (snd kv)) (results r)).
Proof.
  intros Hp. destruct (parse_result_run w p text Hp) as [log E].
  unfold result, run, search_document, try_except, bind. rewrite E.
  unfold ret. cbv beta iota. eexists. split; [reflexivity|].
  cbn [s_success results total_matches fst].
  split; [reflexivity|]. split; [reflexivity|]. apply fold_left_add_sum.
Qed.

Lemma analyze_rejects_short_text (w : World) (p text : str) :
  result (parse p) w = inr text ->
  length (strip text) < 50 ->
  result (analyze_document p) w = inl (ValueError too_short).
Proof.
  intros Hp Hlen. destruct (parse_result_run w p text Hp) as [log E].
  unfold result, run, analyze_document, try_except, bind. rewrite E.
  assert (Hgate : (match text with [] => true | _ => false end
                   || (length (strip text) <? 50)) = true).
  { apply orb_true_iff. right. apply Nat.ltb_lt. exact Hlen. }
  rewrite Hgate. reflexivity.
Qed.

(** C10, amended. [search_document] has no test on the length of the
    content: for every file that exists, has a supported extension and
    decodes, it returns a record with [success = True] whose mapping is
    that of [search_keywords] on the decoded text and whose
    [total_matches] is the sum of the lengths of the lists of the mapping,
    whatever the length of the text; the mapping is empty and
    [total_matches] is 0 when the text is empty and no keyword is the empty
    string. [analyze_document] rejects the same file with the too-short
    [ValueError] when the stripped text has fewer than 50 characters. *)
Theorem search_has_no_length_gate (w : World) (p text : str) (keywords : list str) :
  decodes_to w p text ->
  (exists r,
      result (search_document p keywords) w = inr r /\
      s_success r = true /\
      results r = TextAnalyzer.search_keywords text keywords /\
      total_matches r = list_sum (map (fun kv => length (snd kv)) (results r)) /\
      (text = [] -> Forall (fun k => k <> []) keywords ->
       results r = [] /\ total_matches r = 0)) /\
  (length (strip text) < 50 ->
   result (analyze_document p) w = inl (ValueError too_short)).
Proof.
  intros Hd. pose proof (decodes_result w p text Hd) as Hp. split.
  - destruct (search_on_parsed_text w p text keywords Hp) as (r & Hr & Hs & Hres & Htot).
    exists r. split; [exact Hr|]. split; [exact Hs|]. split; [exact Hres|].
    split; [exact Htot|]. intros Hempty Hkeys. subst text.
    rewrite Htot, Hres, (search_keywords_empty_text keywords Hkeys).
    split; reflexivity.
  - apply analyze_rejects_short_text. exact Hp.
Qed.

Lemma search_has_no_length_gate_witness :
  decodes_to sample_world (lit "short.txt") (lit "Short") /\
  (exists r,
      result (search_document (lit "short.txt") [lit "short"]) sample_world = inr r /\
      s_success r = true /\
      total_matches r = 1) /\
  result (analyze_document (lit "short.txt")) sample_world = inl (ValueError too_short).
Proof.
  destruct (search_has_no_length_gate sample_world (lit "short.txt") (lit "Short")
              [lit "short"] short_decodes)
    as [(r & Hr & Hs & Hres & Htot & _) Ha].
  split; [exact short_decodes|]. split.
  - exists r. split; [exact Hr|]. split; [exact Hs|].
    rewrite Htot, Hres. vm_compute. reflexivity.
  - apply Ha. apply Nat.ltb_lt. vm_compute. reflexivity.
Defined.

(** What the records carry is what the extractors returned. *)
Lemma analyze_result_fields (w : World) (p : str) (r : AnalysisResult) :
  result (analyze_document p) w = inr r ->
  exists text,
    definitions r = TextAnalyzer.extract_definitions text /\
    obligations r = TextAnalyzer.extract_obligations text.
Proof.
  unfold result, run, analyze_document, try_except, bind.
  destruct (parse p w []) as [[e|text] log].
  - destruct e; discriminate.
  - destruct (match text with [] => true | _ => false end
              || (length (strip text) <? 50)).
    + discriminate.
    + unfold ret. cbv beta iota. simpl. intros H. injection H as <-.
      exists text. split; reflexivity.
Qed.

Lemma search_result_fields (w : World) (p : str) (keywords : list str)
      (r : SearchResult) :
  result (search_document p keywords) w = inr r ->
  exists text, results r = TextAnalyzer.search_keywords text keywords.
Proof.
  unfold result, run, search_document, try_except, bind.
  destruct (parse p w []) as [[e|text] log].
  - discriminate.
  - unfold ret. cbv beta iota. simpl. intros H. injection H as <-.
    exists text. reflexivity.
Qed.

(** C3. For every text, [extract_definitions] returns at most 20
    entries, [extract_obligations] at most 15, and every list of snippets
    in the mapping that [search_keywords] returns has at most 10, whatever
    the number of occurrences in the text. The extractors cut their own
    results, so the records of [analyze_document] and [search_document]
    carry lists within these bounds. *)
Theorem extractors_enforce_caps (text : str) (keywords : list str) :
  length (TextAnalyzer.extract_definitions text) <= 20 /\
  length (TextAnalyzer.extract_obligations text) <= 15 /\
  Forall (fun kv => length (snd kv) <= 10)
         (TextAnalyzer.search_keywords text keywords) /\
  (forall (w : World) (p : str) (r : AnalysisResult),
      result (analyze_document p) w = inr r ->
      length (definitions r) <= 20 /\ length (obligations r) <= 15) /\
  (forall (w : World) (p : str) (r : SearchResult),
      result (search_document p keywords) w = inr r ->
      Forall (fun kv => length (snd kv) <= 10) (results r)).
Proof.
  split; [apply extract_definitions_capped|].
  split; [apply extract_obligations_capped|].
  split; [apply search_keywords_capped|]. split.
  - intros w p r H. destruct (analyze_result_fields w p r H) as (t & -> & ->).
    split; [apply extract_definitions_capped | apply extract_obligations_capped].
  - intros w p r H. destruct (search_result_fields w p keywords r H) as (t & ->).
    apply search_keywords_capped.
Qed.

End Orchestrator.

(** ** Sorting keeps the elements *)

Section SortFacts.
Variables A K : Type.
Variable ltk : K -> K -> bool.
Variable key : A -> K.
Variable reverse : bool.

Lemma sort_insert_perm (x : A) (l : list A) :
  Permutation (sort_insert ltk key reverse x l) (x :: l).
Proof.
  induction l as [|y t IH]; simpl; [reflexivity|].
  destruct (goes_before ltk key reverse y x); [|reflexivity].
  rewrite IH. apply perm_swap.
Qed.

Lemma py_sort_perm (l : list A) : Permutation (py_sort ltk key reverse l) l.
Proof.
  induction l as [|x t IH]; simpl; [reflexivity|].
  rewrite sort_insert_perm. constructor. exact IH.
Qed.
End SortFacts.

(** Sorting on a numeric key, ascending, gives a list in which the keys
    never decrease. *)
Section SortByIndex.
Variable A : Type.
Variable key : A -> nat.

Lemma sort_insert_by_index_sorted (x : A) (l : list A) :
  StronglySorted (key_le key) l ->
  StronglySorted (key_le key) (sort_insert Nat.ltb key false x l).
Proof.
  induction 1 as [|y t Ht IH Hy]; simpl.
  - constructor; constructor.
  - unfold goes_before. destruct (Nat.ltb_spec (key y) (key x)) as [Hlt|Hge].
    + constructor; [exact IH|].
      assert (Hp : Permutation (sort_insert Nat.ltb key false x t) (x :: t))
        by apply sort_insert_perm.
      apply (Permutation_Forall (Permutation_sym Hp)).
      constructor; [unfold key_le; lia | exact Hy].
    + constructor; [constructor; assumption|].
      constructor; [exact Hge|].
      eapply Forall_impl; [|exact Hy]. unfold key_le. intros a Ha. lia.
Qed.

Lemma py_sort_by_index_sorted (l : list A) :
  StronglySorted (key_le key) (py_sort Nat.ltb key false l).
Proof.
  induction l as [|x t IH]; simpl; [constructor|].
  apply sort_insert_by_index_sorted. exact IH.
Qed.
End SortByIndex.

(** ** Enumerations and order of appearance *)

Lemma enumerate_from_fst_ge {A} (l : list A) (i : nat) (y : nat * A) :
  In y (enumerate_from i l) -> i <= fst y.
Proof.
  revert i. induction l as [|x t IH]; intros i; simpl; [tauto|].
  intros [<-|H]; [simpl; lia|]. apply IH in H. lia.
Qed.

Lemma enumerate_from_fst_seq {A} (l : list A) (i : nat) :
  map fst (enumerate_from i l) = seq i (length l).
Proof.
  revert i. induction l as [|x t IH]; intros i; simpl; [reflexivity|].
  rewrite IH. reflexivity.
Qed.

(** Members of an enumeration, listed with strictly increasing indices,
    appear in the order of the enumeration. *)
Lemma increasing_members_subseq {A} (l : list A) (i : nat) (picked : list (nat * A)) :
  StronglySorted (fun a b => fst a < fst b) picked ->
  (forall y, In y picked -> In y (enumerate_from i l)) ->
  subseq picked (enumerate_from i l).
Proof.
  revert i picked. induction l as [|x t IH]; intros i picked Hs Hin; simpl.
  - destruct picked as [|y p]; [constructor|]. destruct (Hin y (or_introl eq_refl)).
  - destruct picked as [|y p]; [constructor|].
    inversion Hs as [|y' p' Hp Hy]; subst.
    destruct (Hin y (or_introl eq_refl)) as [Hy0|Hy0].
    + subst y. apply subseq_take. apply IH; [exact Hp|].
      intros z Hz. destruct (Hin z (or_intror Hz)) as [Hz0|Hz0]; [|exact Hz0].
      subst z. rewrite Forall_forall in Hy. specialize (Hy _ Hz). simpl in Hy. lia.
    + apply subseq_skip. apply IH; [exact Hs|].
      intros z [Hz|Hz]; [subst z; exact Hy0|].
      destruct (Hin z (or_intror Hz)) as [Hz0|Hz0]; [|exact Hz0].
      subst z. rewrite Forall_forall in Hy. specialize (Hy _ Hz).
      apply enumerate_from_fst_ge in Hy0. simpl in Hy. lia.
Qed.

Lemma subseq_length {A} (l1 l2 : list A) : subseq l1 l2 -> length l1 <= length l2.
Proof. induction 1; simpl; lia. Qed.

Lemma sorted_distinct_keys_increase {A} (key : A -> nat) (l : list A) :
  StronglySorted (key_le key) l ->
  NoDup (map key l) ->
  StronglySorted (fun a b => key a < key b) l.
Proof.
  induction 1 as [|y t Ht IH Hy]; simpl; intros Hnd; [constructor|].
  inversion Hnd as [|k ks Hnotin Hnd']; subst.
  constructor; [apply IH; exact Hnd'|].
  rewrite Forall_forall in *. intros z Hz.
  specialize (Hy z Hz). unfold key_le in Hy.
  assert (key z <> key y).
  { intros E. apply Hnotin. rewrite <- E. apply in_map. exact Hz. }
  lia.
Qed.

Lemma StronglySorted_map {A B} (R : B -> B -> Prop) (f : A -> B) (l : list A) :
  StronglySorted (fun a b => R (f a) (f b)) l -> StronglySorted R (map f l).
Proof.
  induction 1 as [|y t Ht IH Hy]; simpl; constructor; [exact IH|].
  rewrite Forall_forall in *. intros z Hz.
  apply in_map_iff in Hz as (a & <- & Ha). apply Hy. exact Ha.
Qed.

Lemma NoDup_firstn {A} (n : nat) (l : list A) : NoDup l -> NoDup (firstn n l).
Proof.
  intros H. rewrite <- (firstn_skipn n l) in H.
  apply NoDup_app_remove_r in H. exact H.
Qed.

Lemma slice_to_is_firstn {A} (l : list A) (k : Z) :
  exists n, slice_to l k = firstn n l.
Proof. unfold slice_to. destruct (k <? 0)%Z; eexists; reflexivity. Qed.

(** ** The summarizer *)

Section Summaries.
Import DocumentSummarizer.

Lemma score_sentences_tags (sentences : list str) (text : str) :
  map tag (_score_sentences sentences text) = enumerate sentences.
Proof.
  unfold _score_sentences. rewrite map_map. unfold tag, index_of, sentence_of. simpl.
  rewrite <- (map_id (enumerate sentences)) at 2.
  apply map_ext. intros [i s]. reflexivity.
Qed.

Lemma score_sentences_indices (sentences : list str) (text : str) :
  NoDup (map index_of (_score_sentences sentences text)).
Proof.
  replace (map index_of (_score_sentences sentences text))
    with (map fst (map tag (_score_sentences sentences text)))
    by (rewrite map_map; reflexivity).
  rewrite score_sentences_tags. unfold enumerate.
  rewrite enumerate_from_fst_seq. apply seq_NoDup.
Qed.

Lemma selection_in_order (sentences : list str) (text : str) (k : Z) :
  subseq (map tag (selection sentences text k)) (enumerate sentences).
Proof.
  unfold selection.
  set (scored1 := _score_sentences sentences text).
  set (ranked := py_sort PrimFloat.ltb score_of true scored1).
  destruct (slice_to_is_firstn ranked k) as [n ->].
  set (top := firstn n ranked).
  set (final := py_sort Nat.ltb index_of false top).
  assert (Hperm1 : Permutation ranked scored1) by apply py_sort_perm.
  assert (Hperm2 : Permutation final top) by apply py_sort_perm.
  assert (Hnd : NoDup (map index_of final)).
  { apply (Permutation_NoDup (Permutation_map index_of (Permutation_sym Hperm2))).
    unfold top. rewrite <- firstn_map. apply NoDup_firstn.
    apply (Permutation_NoDup (Permutation_map index_of (Permutation_sym Hperm1))).
    apply score_sentences_indices. }
  unfold enumerate. apply increasing_members_subseq.
  - apply StronglySorted_map. simpl.
    apply sorted_distinct_keys_increase; [|exact Hnd].
    apply py_sort_by_index_sorted.
  - intros y Hy. apply in_map_iff in Hy as (x & <- & Hx).
    change (enumerate_from 0 sentences) with (enumerate sentences).
    rewrite <- (score_sentences_tags sentences text). apply in_map.
    apply (Permutation_in _ Hperm1).
    apply (Permutation_in _ Hperm2) in Hx.
    unfold top in Hx. rewrite <- (firstn_skipn n ranked). apply in_or_app. left. exact Hx.
Qed.

Lemma selection_length (sentences : list str) (text : str) (k : Z) :
  (0 <= k)%Z -> (Z.of_nat (length (selection sentences text k)) <= k)%Z.
Proof.
  intros Hk. unfold selection.
  rewrite (Permutation_length (py_sort_perm _ _ _ _ _ _)).
  pose proof (slice_to_length_le
                (py_sort PrimFloat.ltb score_of true (_score_sentences sentences text))
                k Hk). lia.
Qed.

Lemma summarize_unfold (text : str) (max_sentences : option Z) :
  _split_sentences text <> [] ->
  summarize text max_sentences
  = join (lit " ")
         (map sentence_of
              (selection (_split_sentences text) text
                         (match max_sentences with
                          | None => max_summary_sentences
                          | Some k => k
                          end))).
Proof.
  intros H. unfold summarize, selection.
  destruct (_split_sentences text); [congruence | reflexivity].
Qed.

(** C5, as stated, fails for a negative [max_sentences]: [l[:-1]] drops
    the last element only, so a text of two sentences is summarized by one
    sentence, which is more than -1. *)
Lemma negative_max_sentences_still_selects :
  summarize contract_text (Some (-1)%Z)
  = lit "The Supplier shall deliver the goods by 1 March" /\
  In (lit "The Supplier shall deliver the goods by 1 March")
     (_split_sentences contract_text) /\
  ~ (forall (text : str) (k : Z),
        exists picked : list (nat * str),
          subseq picked (enumerate (_split_sentences text)) /\
          (Z.of_nat (length picked) <= k)%Z /\
          summarize text (Some k)
          = match _split_sentences text with
            | [] => no_content
            | _ :: _ => join (lit " ") (map snd picked)
            end).
Proof.
  split; [vm_compute; reflexivity|]. split; [vm_compute; left; reflexivity|].
  intros H.
  destruct (H contract_text (-1)%Z) as (picked & _ & Hlen & _). lia.
Qed.

(** C5, amended. For every text and every [max_sentences = k >= 0] (the
    default 10 included), [summarize] returns the sentences of a selection
    joined by single spaces; the selection has at most [k] sentences, and
    its sentences are sentences of the text, at increasing indices: in the
    order in which the text has them. When no sentence survives the split
    the marker of C6 stands for the summary. *)
Theorem summarize_at_most_k_in_text_order (text : str) (max_sentences : option Z) :
  let k := match max_sentences with
           | None => max_summary_sentences
           | Some k => k
           end in
  (0 <= k)%Z ->
  exists picked : list (nat * str),
    subseq picked (enumerate (_split_sentences text)) /\
    (Z.of_nat (length picked) <= k)%Z /\
    summarize text max_sentences
    = match _split_sentences text with
      | [] => no_content
      | _ :: _ => join (lit " ") (map snd picked)
      end.
Proof.
  intros k Hk.
  exists (map tag (selection (_split_sentences text) text k)).
  split; [apply selection_in_order|]. split.
  - rewrite length_map. apply selection_length. exact Hk.
  - destruct (_split_sentences text) as [|s0 rest] eqn:E.
    + unfold summarize. rewrite E. reflexivity.
    + rewrite (summarize_unfold text max_sentences) by (rewrite E; discriminate).
      rewrite E, map_map. reflexivity.
Qed.

Lemma summarize_at_most_k_in_text_order_witness :
  exists picked : list (nat * str),
    subseq picked (enumerate (_split_sentences contract_text)) /\
    (Z.of_nat (length picked) <= 1)%Z /\
    summarize contract_text (Some 1%Z) = join (lit " ") (map snd picked).
Proof.
  destruct (summarize_at_most_k_in_text_order contract_text (Some 1%Z))
    as (picked & Hsub & Hlen & Hsum).
  - vm_compute. discriminate.
  - exists picked. split; [exact Hsub|]. split; [exact Hlen|].
    rewrite Hsum. vm_compute. reflexivity.
Defined.

End Summaries.

Section NoContent.
Import DocumentSummarizer.

Lemma filter_none {A} (f : A -> bool) (l : list A) :
  Forall (fun x => f x = false) l -> filter f l = [].
Proof.
  induction 1 as [|x t Hx Ht IH]; simpl; [reflexivity|]. rewrite Hx. exact IH.
Qed.

(** No sentence survives when every piece between the separators has at
    most 20 characters once stripped. *)
Lemma split_sentences_none (text : str) :
  Forall (fun piece => length (strip piece) <= 20)
         (re_split false TextAnalyzer.sentence_end text) ->
  _split_sentences text = [].
Proof.
  intros H. unfold _split_sentences. rewrite filter_none; [reflexivity|].
  eapply Forall_impl; [|exact H]. intros piece Hp. cbv beta.
  destruct (strip piece) eqn:E; [reflexivity|].
  apply Nat.ltb_ge. rewrite <- E. exact Hp.
Qed.

(** C6. For every text in which every piece between sentence separators
    has at most 20 characters once stripped, [summarize] returns the
    marker ["No content to summarize."] itself, as an ordinary result, for
    every [max_sentences]; the empty text is such a text. *)
Theorem summarize_without_sentences_is_marker (text : str) (max_sentences : option Z) :
  Forall (fun piece => length (strip piece) <= 20)
         (re_split false TextAnalyzer.sentence_end text) ->
  summarize text max_sentences = lit "No content to summarize." /\
  summarize [] max_sentences = lit "No content to summarize.".
Proof.
  intros H. split.
  - unfold summarize. rewrite (split_sentences_none text H). reflexivity.
  - unfold summarize. destruct max_sentences; reflexivity.
Qed.

Lemma summarize_without_sentences_is_marker_witness :
  Forall (fun piece => length (strip piece) <= 20)
         (re_split false TextAnalyzer.sentence_end (lit "Hello there. Sign here! Ok?")) /\
  summarize (lit "Hello there. Sign here! Ok?") (Some 3%Z)
  = lit "No content to summarize.".
Proof.
  assert (H : Forall (fun piece => length (strip piece) <= 20)
                (re_split false TextAnalyzer.sentence_end
                          (lit "Hello there. Sign here! Ok?"))).
  { vm_compute. repeat constructor. }
  split; [exact H|].
  exact (proj1 (summarize_without_sentences_is_marker
                  (lit "Hello there. Sign here! Ok?") (Some 3%Z) H)).
Defined.

End NoContent.

(** ** Keyword search ignores case *)

Section CaseInsensitive.
Import TextAnalyzer.






Lemma dict_get_set_other {V} (k k' : str) (v : V) d :
  k' <> k -> dict_get k (dict_set k' v d) = dict_get k d.
Proof.
  intros Hne. induction d as [|[k0 v0] t IH]; simpl.
  - destruct (str_eqb k' k) eqn:E; [|reflexivity].
    apply str_eqb_eq in E. congruence.
  - destruct (str_eqb k0 k') eqn:E0; simpl.
    + apply str_eqb_eq in E0. subst k0.
      destruct (str_eqb k' k) eqn:E; [|reflexivity].
      apply str_eqb_eq in E. congruence.
    + destruct (str_eqb k0 k); [reflexivity | exact IH].
Qed.

(** The entry of a keyword in the mapping of [search_keywords]: the first
    ten snippets of the keyword, if it was searched for and has any. *)
Lemma search_keywords_get (text : str) (keywords : list str) (k : str) :
  dict_get k (search_keywords text keywords)
  = match keyword_matches text k with
    | [] => None
    | _ :: _ => if str_mem k keywords
                then Some (slice_to (keyword_matches text k) 10)
                else None
    end.
Proof.
  unfold search_keywords.
  assert (G : forall ks acc,
             dict_get k
               (fold_left
                  (fun results keyword =>
                     match keyword_matches text keyword with
                     | [] => results
                     | _ :: _ =>
                         dict_set keyword
                           (slice_to (keyword_matches text keyword) 10) results
                     end) ks acc)
             = match keyword_matches text k with
               | [] => dict_get k acc
               | _ :: _ => if str_mem k ks
                           then Some (slice_to (keyword_matches text k) 10)
                           else dict_get k acc
               end).
  { induction ks as [|k0 ks IH]; intros acc; simpl.
    - destruct (keyword_matches text k); reflexivity.
    - rewrite IH. destruct (str_eqb k k0) eqn:E.
      + apply str_eqb_eq in E. subst k0.
        destruct (keyword_matches text k) eqn:Ek; [reflexivity|]. simpl.
        destruct (str_mem k ks); [reflexivity|]. apply dict_get_set_same.
      + assert (Hne : k0 <> k).
        { intros ->. assert (str_eqb k k = true) by (apply str_eqb_eq; reflexivity).
          congruence. }
        destruct (keyword_matches text k0) eqn:Ek0; [reflexivity|].
        rewrite (dict_get_set_other _ _ _ _ Hne). reflexivity. }
  rewrite G. destruct (keyword_matches text k); [reflexivity|].
  destruct (str_mem k keywords); reflexivity.
Qed.

Lemma str_mem_In (k : str) (l : list str) : In k l -> str_mem k l = true.
Proof.
  intros H. unfold str_mem. apply existsb_exists. exists k. split; [exact H|].
  apply str_eqb_eq. reflexivity.
Qed.



End CaseInsensitive.

(** ** Clauses, line by line *)

Section ClausesPerLine.
Import TextAnalyzer.

(** The loop over the patterns with its [break] is the first-match rule. *)
Lemma try_patterns_first_marker (lines : list str) (i : nat) (line : str)
      (clauses : list Clause) :
  try_patterns lines i line clause_patterns clauses
  = clauses ++ line_clauses lines i line clauses.
Proof.
  unfold clause_patterns, line_clauses, first_marker. simpl.
  destruct (re_search true labeled_marker line); [reflexivity|].
  destruct (re_search true numeric_marker line); [reflexivity|].
  rewrite app_nil_r. reflexivity.
Qed.

Lemma line_clauses_at_most_one (lines : list str) (i : nat) (line : str)
      (clauses : list Clause) :
  length (line_clauses lines i line clauses) <= 1.
Proof. unfold line_clauses. destruct (first_marker line); simpl; lia. Qed.

Lemma clauses_loop_contributions (lines : list str) (numbered : list (nat * str))
      (clauses : list Clause) :
  fold_left (fun clauses il =>
               try_patterns lines (fst il) (snd il) clause_patterns clauses)
            numbered clauses
  = clauses ++ concat (contributions lines numbered clauses).
Proof.
  revert clauses. induction numbered as [|il rest IH]; intros clauses.
  - simpl. rewrite app_nil_r. reflexivity.
  - cbn [fold_left contributions concat]. rewrite IH.
    rewrite try_patterns_first_marker, app_assoc. reflexivity.
Qed.

Lemma contributions_length (lines : list str) (numbered : list (nat * str))
      (clauses : list Clause) :
  length (contributions lines numbered clauses) = length numbered.
Proof.
  revert clauses. induction numbered as [|il rest IH]; intros clauses; simpl;
    [reflexivity | rewrite IH; reflexivity].
Qed.

Lemma contributions_at_most_one (lines : list str) (numbered : list (nat * str))
      (clauses : list Clause) :
  Forall (fun added => length added <= 1) (contributions lines numbered clauses).
Proof.
  revert clauses. induction numbered as [|il rest IH]; intros clauses; simpl;
    constructor; [apply line_clauses_at_most_one | apply IH].
Qed.

Lemma concat_length_le {A} (ll : list (list A)) :
  Forall (fun l => length l <= 1) ll -> length (concat ll) <= length ll.
Proof.
  induction 1 as [|l t Hl Ht IH]; simpl; [lia|]. rewrite length_app. lia.
Qed.

Lemma enumerate_from_length {A} (l : list A) (i : nat) :
  length (enumerate_from i l) = length l.
Proof.
  revert i. induction l as [|x t IH]; intros i; simpl;
    [reflexivity | rewrite IH; reflexivity].
Qed.

(** C7. For every text, [extract_clauses] is the concatenation of what
    each line adds, line after line; a line adds the clause of the labeled
    marker when that pattern matches it, otherwise the clause of the bare
    numeric marker when that one matches, otherwise nothing: at most one
    clause a line, from the first pattern that matches. *)
Theorem extract_clauses_one_per_line_first_match (text : str) :
  let lines := split_char newline text in
  let added := contributions lines (enumerate lines) [] in
  extract_clauses text = concat added /\
  length added = length lines /\
  Forall (fun per_line => length per_line <= 1) added /\
  length (extract_clauses text) <= length lines /\
  forall (i : nat) (line : str) (clauses : list Clause),
    try_patterns lines i line clause_patterns clauses
    = clauses ++
      match re_search true labeled_marker line with
      | Some m => [make_clause lines i line m clauses]
      | None =>
          match re_search true numeric_marker line with
          | Some m => [make_clause lines i line m clauses]
          | None => []
          end
      end.
Proof.
  intros lines added.
  assert (E : extract_clauses text = concat added).
  { unfold extract_clauses. fold lines. rewrite clauses_loop_contributions. reflexivity. }
  assert (L : length added = length lines).
  { unfold added. rewrite contributions_length. apply enumerate_from_length. }
  assert (F : Forall (fun per_line : list Clause => length per_line <= 1) added)
    by apply contributions_at_most_one.
  split; [exact E|]. split; [exact L|]. split; [exact F|]. split.
  - rewrite E, <- L. apply concat_length_le. exact F.
  - intros i line clauses. rewrite try_patterns_first_marker.
    unfold line_clauses, first_marker.
    destruct (re_search true labeled_marker line); [reflexivity|].
    destruct (re_search true numeric_marker line); reflexivity.
Qed.

End ClausesPerLine.

(** ** The matcher accepts only what the pattern spells *)

Section MatcherSound.
Variable ic : bool.

Lemma char_after_app (prev : option ascii) (w1 w2 : str) :
  char_after prev (w1 ++ w2) = char_after (char_after prev w1) w2.
Proof. unfold char_after. apply fold_left_app. Qed.

Lemma rep_sound (R : Type) (a : atom) (rest : str) :
  forall prev pos (k : kont R) res,
    rep ic a prev rest pos k = Some res ->
    exists w rest',
      rest = w ++ rest' /\
      Forall (fun c => atom_match ic a c = true) w /\
      k (char_after prev w) rest' (pos + length w) = Some res.
Proof.
  induction rest as [|c t IH]; intros prev pos k res H; simpl in H.
  - exists [], []. rewrite Nat.add_0_r. repeat split; [constructor | exact H].
  - destruct (atom_match ic a c) eqn:Ea.
    + destruct (rep ic a (Some c) t (S pos) k) as [r|] eqn:Er.
      * injection H as ->. destruct (IH _ _ _ _ Er) as (w & rest' & -> & Hw & Hk).
        exists (c :: w), rest'. simpl. split; [reflexivity|].
        split; [constructor; assumption|].
        replace (pos + S (length w)) with (S pos + length w) by lia. exact Hk.
      * exists [], (c :: t). rewrite Nat.add_0_r.
        repeat split; [constructor | exact H].
    + exists [], (c :: t). rewrite Nat.add_0_r. repeat split; [constructor | exact H].
Qed.

Lemma rmatch_k_sound (R : Type) (r : regex) :
  forall prev rest pos mk (k : option ascii -> str -> nat -> marks -> option R) res,
    rmatch_k ic r prev rest pos mk k = Some res ->
    exists w rest' mk',
      rest = w ++ rest' /\
      spells ic r pos w mk mk' /\
      k (char_after prev w) rest' (pos + length w) mk' = Some res.
Proof.
  induction r as [|a|a|a| | | |r1 IH1 r2 IH2|r1 IH1 r2 IH2|n r1 IH1];
    intros prev rest pos mk k res H; simpl in H.
  - exists [], rest, mk. rewrite Nat.add_0_r. repeat split; [constructor | exact H].
  - destruct rest as [|c t]; [discriminate|].
    destruct (atom_match ic a c) eqn:Ea; [|discriminate].
    exists [c], t, mk. simpl. replace (pos + 1) with (S pos) by lia.
    repeat split; [constructor; exact Ea | exact H].
  - apply rep_sound in H as (w & rest' & -> & Hw & Hk).
    exists w, rest', mk. repeat split; [constructor; exact Hw | exact Hk].
  - destruct rest as [|c t]; [discriminate|].
    destruct (atom_match ic a c) eqn:Ea; [|discriminate].
    apply rep_sound in H as (w & rest' & -> & Hw & Hk).
    exists (c :: w), rest', mk. simpl.
    replace (pos + S (length w)) with (S pos + length w) by lia.
    repeat split; [constructor; assumption | exact Hk].
  - destruct prev; [discriminate|].
    exists [], rest, mk. rewrite Nat.add_0_r. repeat split; [constructor | exact H].
  - assert (Hk : k prev rest pos mk = Some res).
    { destruct rest as [|c [|c' t]]; [exact H | | discriminate].
      destruct (Ascii.eqb c "010"); [exact H | discriminate]. }
    exists [], rest, mk. rewrite Nat.add_0_r. repeat split; [constructor | exact Hk].
  - destruct (xorb (opt_word prev) (opt_word (hd_error rest))); [|discriminate].
    exists [], rest, mk. rewrite Nat.add_0_r. repeat split; [constructor | exact H].
  - apply IH1 in H as (w1 & rest1 & mk1 & -> & Hs1 & H).
    apply IH2 in H as (w2 & rest2 & mk2 & -> & Hs2 & H).
    exists (w1 ++ w2), rest2, mk2. rewrite char_after_app, length_app, app_assoc.
    replace (pos + (length w1 + length w2)) with (pos + length w1 + length w2) by lia.
    repeat split; [econstructor; eassumption | exact H].
  - destruct (rmatch_k ic r1 prev rest pos mk k) as [x|] eqn:E1.
    + injection H as ->. apply IH1 in E1 as (w & rest' & mk' & -> & Hs & Hk).
      exists w, rest', mk'. repeat split; [apply sp_alt_l; exact Hs | exact Hk].
    + apply IH2 in H as (w & rest' & mk' & -> & Hs & Hk).
      exists w, rest', mk'. repeat split; [apply sp_alt_r; exact Hs | exact Hk].
  - apply IH1 in H as (w & rest' & mk' & -> & Hs & Hk).
    exists w, rest', (close_group n pos (pos + length w) mk').
    repeat split; [constructor; exact Hs | exact Hk].
Qed.

(** A match found by [re.search] lies in the text, and the pattern spells
    the matched characters. *)
Lemma search_from_sound (r : regex) (rest : str) :
  forall prev pos m,
    search_from ic r prev rest pos = Some m ->
    exists skipped w rest',
      rest = skipped ++ w ++ rest' /\
      m_start m = pos + length skipped /\
      m_end m = m_start m + length w /\
      spells ic r (m_start m) w no_marks (m_marks m).
Proof.
  induction rest as [|c t IH]; intros prev pos m H; simpl in H.
  - destruct (match_at ic r prev [] pos false) as [m0|] eqn:E; [|discriminate].
    injection H as ->. unfold match_at in E.
    apply rmatch_k_sound in E as (w & rest' & mk' & Hr & Hs & Hk).
    simpl in Hk. injection Hk as <-. simpl.
    exists [], w, rest'. simpl. rewrite Nat.add_0_r. repeat split; assumption.
  - destruct (match_at ic r prev (c :: t) pos false) as [m0|] eqn:E.
    + injection H as ->. unfold match_at in E.
      apply rmatch_k_sound in E as (w & rest' & mk' & Hr & Hs & Hk).
      simpl in Hk. injection Hk as <-. simpl.
      exists [], w, rest'. simpl. rewrite Nat.add_0_r. repeat split; assumption.
    + apply IH in H as (skipped & w & rest' & -> & Hst & Hen & Hs).
      exists (c :: skipped), w, rest'. simpl.
      repeat split; [lia | exact Hen | exact Hs].
Qed.

Lemma spells_no_group (r : regex) (pos : nat) (w : str) (mk mk' : marks) :
  spells ic r pos w mk mk' -> has_group r = false -> mk' = mk.
Proof.
  induction 1; simpl; intros Hg; try reflexivity; try discriminate.
  - apply orb_false_iff in Hg as [H1 H2].
    rewrite (IHspells2 H2). apply IHspells1. exact H1.
  - apply orb_false_iff in Hg as [H1 H2]. auto.
  - apply orb_false_iff in Hg as [H1 H2]. auto.
Qed.

End MatcherSound.

(** ** The captured clause number *)

Section CapturedNumber.
Import TextAnalyzer.

Lemma has_group_r_seq (l : list regex) :
  forallb (fun r => negb (has_group r)) l = true -> has_group (r_seq l) = false.
Proof.
  induction l as [|r t IH]; simpl; [reflexivity|].
  intros H. apply andb_true_iff in H as [Hr Ht].
  apply negb_true_iff in Hr. rewrite Hr, (IH Ht). reflexivity.
Qed.

(** A sequence with one capturing group: whatever the sequence spells,
    the marks it leaves are those of the group, closed over the part that
    the group spells. *)
Lemma spells_seq_single_group (ic : bool) (g : nat) (inner : regex)
      (post pre : list regex) :
  forallb (fun r => negb (has_group r)) pre = true ->
  forallb (fun r => negb (has_group r)) post = true ->
  has_group inner = false ->
  forall pos w mk mk',
    spells ic (r_seq (pre ++ RGroup g inner :: post)) pos w mk mk' ->
    exists w1 wg w2,
      w = w1 ++ wg ++ w2 /\
      spells ic inner (pos + length w1) wg mk mk /\
      mk' = close_group g (pos + length w1) (pos + length w1 + length wg) mk.
Proof.
  intros Hpre Hpost Hinner. induction pre as [|r pre' IH]; intros pos w mk mk' H.
  - simpl in H. inversion H as [| | | | | | |r1 r2 w1 w2 p m0 m1 m2 Hg Hrest| | |]; subst.
    inversion Hg as [| | | | | | | | | |n r0 w0 p0 m3 m4 Hin]; subst.
    pose proof (spells_no_group _ _ _ _ _ _ Hin Hinner) as ->.
    pose proof (spells_no_group _ _ _ _ _ _ Hrest (has_group_r_seq post Hpost)) as ->.
    exists [], w1, w2. simpl. rewrite Nat.add_0_r. repeat split. exact Hin.
  - simpl in Hpre. apply andb_true_iff in Hpre as [Hr Hpre'].
    apply negb_true_iff in Hr. simpl in H.
    inversion H as [| | | | | | |r1 r2 wa wb p m0 m1 m2 Ha Hb| | |]; subst.
    pose proof (spells_no_group _ _ _ _ _ _ Ha Hr) as ->.
    destruct (IH Hpre' _ _ _ _ Hb) as (w1 & wg & w2 & -> & Hin & ->).
    exists (wa ++ w1), wg, w2. rewrite length_app, <- app_assoc.
    replace (pos + (length wa + length w1)) with (pos + length wa + length w1) by lia.
    repeat split. exact Hin.
Qed.

Lemma slice_middle {A} (a m z : list A) :
  slice (a ++ m ++ z) (length a) (length a + length m) = m.
Proof.
  unfold slice. rewrite skipn_app, skipn_all, Nat.sub_diag. simpl.
  replace (length a + length m - length a) with (length m) by lia.
  rewrite firstn_app, firstn_all, Nat.sub_diag. simpl. apply app_nil_r.
Qed.

Lemma digit_atom_is_digit (c : ascii) :
  atom_match true a_digit c = true -> is_digit c = true.
Proof.
  destruct c as [b0 b1 b2 b3 b4 b5 b6 b7].
  destruct b0, b1, b2, b3, b4, b5, b6, b7; vm_compute; intros H;
    first [reflexivity | discriminate H].
Qed.

Lemma dot_digit_atom (c : ascii) :
  atom_match true (ASet false [CChar "."; CDigit]) c = true ->
  is_digit c || Ascii.eqb c "." = true.
Proof.
  destruct c as [b0 b1 b2 b3 b4 b5 b6 b7].
  destruct b0, b1, b2, b3, b4, b5, b6, b7; vm_compute; intros H;
    first [reflexivity | discriminate H].
Qed.

Lemma digits_forallb (w : str) :
  Forall (fun c => atom_match true a_digit c = true) w ->
  forallb (fun c => is_digit c || Ascii.eqb c ".") w = true.
Proof.
  induction 1 as [|c t Hc Ht IH]; simpl; [reflexivity|].
  rewrite (digit_atom_is_digit c Hc), IH. reflexivity.
Qed.

Lemma dot_digits_forallb (w : str) :
  Forall (fun c => atom_match true (ASet false [CChar "."; CDigit]) c = true) w ->
  forallb (fun c => is_digit c || Ascii.eqb c ".") w = true.
Proof.
  induction 1 as [|c t Hc Ht IH]; simpl; [reflexivity|].
  rewrite (dot_digit_atom c Hc), IH. reflexivity.
Qed.

(** The group of the labeled marker spells a numeric identifier. *)
Lemma labeled_group_numeric (pos : nat) (w : str) (mk mk' : marks) :
  spells true (RSeq (RPlus a_digit) (RStar (ASet false [CChar "."; CDigit])))
         pos w mk mk' ->
  is_numeric_id w = true.
Proof.
  intros H. inversion H as [| | | | | | |r1 r2 w1 w2 p m0 m1 m2 H1 H2| | |]; subst.
  inversion H1 as [| | |a c w0 p0 m3 Hc Hw| | | | | | |]; subst.
  inversion H2 as [| |a w0' p0 m3 Hw'| | | | | | | |]; subst.
  simpl. rewrite (digit_atom_is_digit c Hc), forallb_app.
  rewrite (digits_forallb _ Hw), (dot_digits_forallb _ Hw'). reflexivity.
Qed.

(** So does the group of the bare numeric marker. *)
Lemma numeric_group_numeric (pos : nat) (w : str) (mk mk' : marks) :
  spells true (RPlus a_digit) pos w mk mk' -> is_numeric_id w = true.
Proof.
  intros H. inversion H as [| | |a c w0 p0 m3 Hc Hw| | | | | | |]; subst.
  simpl. rewrite (digit_atom_is_digit c Hc), (digits_forallb _ Hw). reflexivity.
Qed.

(** Every match of a clause pattern has closed group 1, and over a numeric
    identifier. *)
Lemma clause_pattern_captures (pattern : regex) (line : str) (m : rmatch) :
  In pattern clause_patterns ->
  re_search true pattern line = Some m ->
  lastindex (m_marks m) = Some 1 /\
  is_numeric_id (group line m 1) = true.
Proof.
  intros Hin Hs. unfold re_search in Hs.
  apply search_from_sound in Hs as (skipped & w & rest' & Hl & Hst & Hen & Hsp).
  simpl in Hst.
  assert (G : exists w1 wg w2,
             w = w1 ++ wg ++ w2 /\
             is_numeric_id wg = true /\
             m_marks m = close_group 1 (m_start m + length w1)
                                     (m_start m + length w1 + length wg) no_marks).
  { destruct Hin as [<-|[<-|[]]].
    - change labeled_marker
        with (r_seq ([line_start; RStar a_space;
                      r_alt [r_word "CLAUSE"; r_word "Article"; r_word "Section";
                             r_word "Paragraph"];
                      RPlus a_space]
                       ++ RGroup 1 (RSeq (RPlus a_digit)
                                         (RStar (ASet false [CChar "."; CDigit])))
                       :: [RAtom (ASet false [CChar ":"; CSpace])])) in Hsp.
      apply spells_seq_single_group in Hsp; [|reflexivity..].
      destruct Hsp as (w1 & wg & w2 & Hw & Hg & Hm).
      exists w1, wg, w2. repeat split; [exact Hw | | exact Hm].
      eapply labeled_group_numeric. exact Hg.
    - change numeric_marker
        with (r_seq ([line_start; RStar a_space]
                       ++ RGroup 1 (RPlus a_digit)
                       :: [RAtom (ALit "."); RPlus a_space;
                           RAtom (ASet false [CRange "A" "Z"])])) in Hsp.
      apply spells_seq_single_group in Hsp; [|reflexivity..].
      destruct Hsp as (w1 & wg & w2 & Hw & Hg & Hm).
      exists w1, wg, w2. repeat split; [exact Hw | | exact Hm].
      eapply numeric_group_numeric. exact Hg. }
  destruct G as (w1 & wg & w2 & Hw & Hnum & Hm).
  split; [rewrite Hm; reflexivity|].
  unfold group. rewrite Hm. simpl.
  subst line w. rewrite Hst.
  replace (skipped ++ (w1 ++ wg ++ w2) ++ rest')
    with ((skipped ++ w1) ++ wg ++ (w2 ++ rest'))
    by (rewrite <- !app_assoc; reflexivity).
  rewrite <- length_app, slice_middle. exact Hnum.
Qed.

Lemma enumerate_from_In {A} (l : list A) (k : nat) (il : nat * A) :
  In il (enumerate_from k l) -> In (snd il) l.
Proof.
  revert k. induction l as [|x t IH]; intros k; simpl; [tauto|].
  intros [<-|H]; [left; reflexivity | right; eapply IH; exact H].
Qed.

Lemma make_clause_number (lines : list str) (i : nat) (line : str) (m : rmatch)
      (clauses : list Clause) (pattern : regex) :
  In pattern clause_patterns ->
  re_search true pattern line = Some m ->
  number (make_clause lines i line m clauses) = group line m 1.
Proof.
  intros Hin Hs. destruct (clause_pattern_captures pattern line m Hin Hs) as [Hl _].
  unfold make_clause. simpl. rewrite Hl. reflexivity.
Qed.

Lemma line_clauses_captured (lines : list str) (i : nat) (line : str)
      (clauses : list Clause) :
  In line lines ->
  Forall (captured_number lines) (line_clauses lines i line clauses).
Proof.
  intros Hline. unfold line_clauses, first_marker.
  destruct (re_search true labeled_marker line) as [m|] eqn:E1.
  - constructor; [|constructor].
    assert (Hin : In labeled_marker clause_patterns) by (left; reflexivity).
    exists line, labeled_marker, m.
    rewrite (make_clause_number lines i line m clauses _ Hin E1).
    repeat split; try assumption.
    apply (clause_pattern_captures labeled_marker line m Hin E1).
  - destruct (re_search true numeric_marker line) as [m|] eqn:E2; [|constructor].
    constructor; [|constructor].
    assert (Hin : In numeric_marker clause_patterns) by (right; left; reflexivity).
    exists line, numeric_marker, m.
    rewrite (make_clause_number lines i line m clauses _ Hin E2).
    repeat split; try assumption.
    apply (clause_pattern_captures numeric_marker line m Hin E2).
Qed.

Lemma clauses_loop_captured (lines : list str) (numbered : list (nat * str))
      (clauses : list Clause) :
  (forall il, In il numbered -> In (snd il) lines) ->
  Forall (captured_number lines) clauses ->
  Forall (captured_number lines)
         (fold_left (fun clauses il =>
                       try_patterns lines (fst il) (snd il) clause_patterns clauses)
                    numbered clauses).
Proof.
  revert clauses. induction numbered as [|il rest IH]; intros clauses Hn Hc.
  - exact Hc.
  - cbn [fold_left]. apply IH.
    + intros il' H. apply Hn. right. exact H.
    + rewrite try_patterns_first_marker. apply Forall_app. split; [exact Hc|].
      apply line_clauses_captured. apply Hn. left. reflexivity.
Qed.

(** C9. For every text, the number of every clause that [extract_clauses]
    returns is group 1 of the match of a clause pattern on a line of the
    text, a digit followed by digits and dots. The counter fallback of the
    source is never taken: every match of either clause pattern has closed
    its capturing group ([lastindex] is 1), so the number of the clause
    does not depend on the clauses found so far. *)
Theorem clause_number_is_the_captured_group (text : str) :
  Forall (captured_number (split_char newline text)) (extract_clauses text) /\
  forall (pattern : regex) (line : str) (m : rmatch),
    In pattern clause_patterns ->
    re_search true pattern line = Some m ->
    lastindex (m_marks m) = Some 1 /\
    forall (lines : list str) (i : nat) (clauses : list Clause),
      number (make_clause lines i line m clauses) = group line m 1.
Proof.
  split.
  - unfold extract_clauses. apply clauses_loop_captured; [|constructor].
    intros il H. unfold enumerate in H. eapply enumerate_from_In. exact H.
  - intros pattern line m Hin Hs. split.
    + apply (clause_pattern_captures pattern line m Hin Hs).
    + intros lines i clauses. eapply make_clause_number; eassumption.
Qed.

End CapturedNumber.

(** * Further properties of the code *)

(** ** Failures of the parser and of the orchestrator *)

Section Failures.
Import DocumentParser LegalDocumentAnalyzer.

Lemma supported_cases (ext : str) :
  str_mem ext SUPPORTED_FORMATS = true ->
  ext = lit ".pdf" \/ ext = lit ".docx" \/ ext = lit ".txt".
Proof.
  unfold str_mem, SUPPORTED_FORMATS. simpl. intros H.
  apply orb_true_iff in H as [H|H]; [left; apply str_eqb_eq; exact H|].
  apply orb_true_iff in H as [H|H]; [right; left; apply str_eqb_eq; exact H|].
  apply orb_true_iff in H as [H|H]; [right; right; apply str_eqb_eq; exact H|].
  discriminate H.
Qed.

(** A decoder that raises: the parser answers with its own
    [RuntimeError], after the existence test and the one decoding. *)
Lemma parse_decoder_raises (w : World) (p : str) (e : exn) (label : str)
      (log : list access) :
  path_exists w p = true ->
  decoder_raises w p e label ->
  parse p w log
  = (inl (RuntimeError (lit "Error parsing document: Error parsing " ++ label
                            ++ lit ": " ++ exn_str e)),
     (log ++ [Probe p]) ++ [Decode p]).
Proof.
  intros He Hd. unfold parse, bind, os_path_exists. rewrite He.
  cbv beta iota zeta. change (negb true) with false. cbv iota.
  destruct Hd as [(Hx & Hp & ->)|[(Hx & Hp & ->)|(Hx & Hp & ->)]]; rewrite Hx.
  - change (str_mem (lit ".pdf") SUPPORTED_FORMATS) with true.
    change (str_eqb (lit ".pdf") (lit ".pdf")) with true. cbv iota beta.
    unfold _parse_pdf. unfold try_except, bind, decode_with, ret.
    cbv beta iota delta [negb]. rewrite Hp. reflexivity.
  - change (str_mem (lit ".docx") SUPPORTED_FORMATS) with true.
    change (str_eqb (lit ".docx") (lit ".pdf")) with false.
    change (str_eqb (lit ".docx") (lit ".docx")) with true. cbv iota beta.
    unfold _parse_docx. unfold try_except, bind, decode_with, ret.
    cbv beta iota delta [negb]. rewrite Hp. reflexivity.
  - change (str_mem (lit ".txt") SUPPORTED_FORMATS) with true.
    change (str_eqb (lit ".txt") (lit ".pdf")) with false.
    change (str_eqb (lit ".txt") (lit ".docx")) with false. cbv iota beta.
    unfold _parse_txt. unfold try_except, decode_with.
    cbv beta iota delta [negb]. rewrite Hp. reflexivity.
Qed.

(** For an existing path with a supported extension the decoder of the
    format either answers or raises. *)
Lemma supported_decodes_or_raises (w : World) (p : str) :
  path_exists w p = true ->
  str_mem (extension p) SUPPORTED_FORMATS = true ->
  (exists text, decodes_to w p text) \/
  (exists e label, decoder_raises w p e label).
Proof.
  intros He Hx. destruct (supported_cases _ Hx) as [H|[H|H]].
  - destruct (pdf_pages w p) as [e|pages] eqn:E.
    + right. exists e, (lit "PDF"). left. repeat split; assumption.
    + left. eexists. split; [exact He|]. left. split; [exact H|].
      exists pages. split; [exact E | reflexivity].
  - destruct (docx_paragraphs w p) as [e|paragraphs] eqn:E.
    + right. exists e, (lit "DOCX"). right. left. repeat split; assumption.
    + left. eexists. split; [exact He|]. right. left. split; [exact H|].
      exists paragraphs. split; [exact E | reflexivity].
  - destruct (txt_content w p) as [e|text] eqn:E.
    + right. exists e, (lit "TXT"). right. right. repeat split; assumption.
    + left. exists text. split; [exact He|]. right. right. split; assumption.
Qed.

(** X1. When the decoder of an existing file of a supported format
    raises, whatever the exception, [parse] fails with a [RuntimeError]
    whose message nests the two prefixes of the parser around the message
    of the cause; [analyze_document] passes that failure on unchanged and
    [search_document] wraps it once more. *)
Theorem decoder_failure_is_runtime_error
        (w : World) (p : str) (e : exn) (label : str) (keywords : list str) :
  path_exists w p = true ->
  decoder_raises w p e label ->
  let msg := lit "Error parsing document: Error parsing " ++ label
             ++ lit ": " ++ exn_str e in
  result (parse p) w = inl (RuntimeError msg) /\
  result (analyze_document p) w = inl (RuntimeError msg) /\
  result (search_document p keywords) w
  = inl (RuntimeError (lit "Error searching document: " ++ msg)).
Proof.
  intros He Hd msg.
  unfold result, run, analyze_document, search_document, try_except, bind.
  rewrite (parse_decoder_raises w p e label [] He Hd). repeat split.
Qed.

Lemma decoder_failure_is_runtime_error_witness :
  path_exists unreadable_world (lit "scan.PDF") = true /\
  decoder_raises unreadable_world (lit "scan.PDF")
                 (OtherError (lit "EOF marker not found")) (lit "PDF") /\
  result (analyze_document (lit "scan.PDF")) unreadable_world
  = inl (RuntimeError
           (lit "Error parsing document: Error parsing PDF: EOF marker not found")).
Proof.
  assert (Hd : decoder_raises unreadable_world (lit "scan.PDF")
                 (OtherError (lit "EOF marker not found")) (lit "PDF")).
  { left. repeat split. }
  split; [reflexivity|]. split; [exact Hd|].
  exact (proj1 (proj2 (decoder_failure_is_runtime_error
                         unreadable_world (lit "scan.PDF") _ _ [] eq_refl Hd))).
Defined.

Lemma gate_closed_is_short (text : str) :
  (match text with [] => true | _ => false end || (length (strip text) <? 50)) = true ->
  length (strip text) < 50.
Proof.
  intros H. apply orb_true_iff in H as [H|H].
  - destruct text; [simpl; lia | discriminate].
  - apply Nat.ltb_lt. exact H.
Qed.

(** X2. [analyze_document] fails in four ways and no other: with
    [FileNotFoundError] exactly for a missing path; with the
    unsupported-format [ValueError] for an existing path of another
    extension; with the parser's [RuntimeError] when the decoder raises;
    with the too-short [ValueError] when the file decodes to fewer than 50
    stripped characters. The handler for unexpected exceptions is never
    reached. *)
Theorem analyze_fails_in_four_ways (w : World) (p : str) (e : exn) :
  result (analyze_document p) w = inl e ->
  (path_exists w p = false /\
   e = FileNotFoundError (lit "File not found: " ++ p)) \/
  (path_exists w p = true /\
   str_mem (extension p) SUPPORTED_FORMATS = false /\
   e = ValueError (lit "Unsupported file format: " ++ extension p
                       ++ lit ". Supported formats: .pdf, .docx, .txt")) \/
  (exists cause label,
      path_exists w p = true /\
      decoder_raises w p cause label /\
      e = RuntimeError (lit "Error parsing document: Error parsing " ++ label
                            ++ lit ": " ++ exn_str cause)) \/
  (exists text,
      decodes_to w p text /\
      length (strip text) < 50 /\
      e = ValueError too_short).
Proof.
  intros H. unfold result, run, analyze_document, try_except, bind in H.
  destruct (path_exists w p) eqn:He.
  - destruct (str_mem (extension p) SUPPORTED_FORMATS) eqn:Hx.
    + destruct (supported_decodes_or_raises w p He Hx) as [[text Hd]|(c & label & Hd)].
      * rewrite (parse_decodes w p text [] Hd) in H.
        destruct (match text with [] => true | _ => false end
                  || (length (strip text) <? 50)) eqn:G; [|discriminate H].
        right. right. right. exists text.
        split; [exact Hd|]. split; [apply gate_closed_is_short; exact G|].
        cbv beta iota delta [fst raise] in H. injection H as <-. reflexivity.
      * rewrite (parse_decoder_raises w p c label [] He Hd) in H.
        right. right. left. exists c, label.
        split; [reflexivity|]. split; [exact Hd|].
        cbv beta iota delta [fst raise] in H. injection H as <-. reflexivity.
    + rewrite (parse_unsupported w p [] He Hx) in H.
      right. left. split; [reflexivity|]. split; [reflexivity|].
      cbv beta iota delta [fst raise] in H. injection H as <-. reflexivity.
  - rewrite (parse_missing w p [] He) in H.
    left. split; [reflexivity|].
    cbv beta iota delta [fst raise] in H. injection H as <-. reflexivity.
Qed.

Lemma analyze_fails_in_four_ways_witness :
  result (analyze_document (lit "short.txt")) sample_world
  = inl (ValueError too_short) /\
  exists text,
    decodes_to sample_world (lit "short.txt") text /\ length (strip text) < 50.
Proof.
  assert (H : result (analyze_document (lit "short.txt")) sample_world
              = inl (ValueError too_short)) by (vm_compute; reflexivity).
  split; [exact H|].
  destruct (analyze_fails_in_four_ways sample_world (lit "short.txt") _ H)
    as [[Hc _]|[(_ & Hc & _)|[(c & l & _ & _ & Hc)|(text & Hd & Hl & _)]]].
  - vm_compute in Hc. discriminate Hc.
  - vm_compute in Hc. discriminate Hc.
  - discriminate Hc.
  - exists text. split; assumption.
Defined.

End Failures.

(** ** What is read, and what the records hold *)

Section Records.
Import DocumentParser LegalDocumentAnalyzer.





(** X4. [search_document] succeeds exactly when [parse] does, on the
    mapping of [search_keywords] for the parsed text, and it fails exactly
    when [parse] fails: always with a [RuntimeError], whose message is the
    parser's message behind the prefix of the search. The kinds
    [FileNotFoundError] and [ValueError] never leave [search_document]. *)
Theorem search_document_outcomes (w : World) (p : str) (keywords : list str) :
  (forall r,
      result (search_document p keywords) w = inr r <->
      exists text,
        result (parse p) w = inr text /\
        r = {| s_success := true;
               s_file_path := p;
               LegalDocumentAnalyzer.keywords := keywords;
               results := TextAnalyzer.search_keywords text keywords;
               total_matches :=
                 list_sum (map (fun kv => length (snd kv))
                               (TextAnalyzer.search_keywords text keywords)) |}) /\
  (forall e,
      result (search_document p keywords) w = inl e <->
      exists cause,
        result (parse p) w = inl cause /\
        e = RuntimeError (lit "Error searching document: " ++ exn_str cause)).
Proof.
  unfold result, run, search_document, try_except, bind.
  destruct (parse p w []) as [[c|text] log]; cbv beta iota delta [fst raise ret];
    split; intros x; split.
  - discriminate.
  - intros (t & Ht & _). discriminate Ht.
  - intros H. injection H as <-. exists c. split; reflexivity.
  - intros (c' & Hc & ->). injection Hc as <-. reflexivity.
  - intros H. injection H as <-. exists text. split; [reflexivity|].
    rewrite fold_left_add_sum. reflexivity.
  - intros (t & Ht & ->). injection Ht as <-.
    rewrite fold_left_add_sum. reflexivity.
  - discriminate.
  - intros (c' & Hc & _). discriminate Hc.
Qed.

Lemma split_ws_from_count (s w : str) :
  length (split_ws_from w s)
  <= length s + match w with [] => 0 | _ => 1 end.
Proof.
  revert w. induction s as [|c t IH]; intros w; simpl.
  - destruct w; simpl; lia.
  - destruct (is_space c).
    + destruct w; simpl; specialize (IH []); simpl in IH; lia.
    + specialize (IH (c :: w)). simpl in IH. destruct w; lia.
Qed.

(** There are no more words than characters. *)
Lemma split_ws_count (s : str) : length (split_ws s) <= length s.
Proof.
  unfold split_ws. pose proof (split_ws_from_count s []) as H. simpl in H. lia.
Qed.

(** X5. A record returned by [analyze_document] comes from a text that
    [parse] decoded and that has at least 50 characters once stripped (the
    converse of C4); it echoes the path, its [full_text] is the first 1000
    characters of the text, its [word_count] does not exceed its
    [text_length], and its lists, summary and key points are those of the
    extractors on that text. *)
Theorem analyze_record_is_consistent (w : World) (p : str) (r : AnalysisResult) :
  result (analyze_document p) w = inr r ->
  exists text,
    result (parse p) w = inr text /\
    50 <= length (strip text) /\
    file_path r = p /\
    text_length r = length text /\
    word_count r <= text_length r /\
    full_text r = firstn 1000 text /\
    length (full_text r) = Nat.min 1000 (text_length r) /\
    clauses r = TextAnalyzer.extract_clauses text /\
    definitions r = TextAnalyzer.extract_definitions text /\
    obligations r = TextAnalyzer.extract_obligations text /\
    summary r = DocumentSummarizer.summarize text None /\
    key_points r
    = DocumentSummarizer.generate_key_points text (clauses r) (definitions r)
                                             (obligations r).
Proof.
  unfold result, run, analyze_document, try_except, bind.
  destruct (parse p w []) as [[e|text] log].
  - destruct e; discriminate.
  - destruct (match text with [] => true | _ => false end
              || (length (strip text) <? 50)) eqn:G; [discriminate|].
    unfold ret. cbv beta iota delta [fst]. intros H. injection H as <-.
    exists text. cbn [file_path text_length word_count full_text clauses
                      definitions obligations summary key_points].
    apply orb_false_iff in G as [_ G]. apply Nat.ltb_ge in G.
    split; [reflexivity|]. split; [exact G|]. split; [reflexivity|].
    split; [reflexivity|]. split; [apply split_ws_count|].
    split; [reflexivity|]. split; [apply length_firstn|].
    repeat split.
Qed.

Lemma analyze_record_is_consistent_witness :
  exists r text,
    result (analyze_document (lit "contract.txt")) sample_world = inr r /\
    result (parse (lit "contract.txt")) sample_world = inr text /\
    word_count r <= text_length r /\
    full_text r = firstn 1000 text.
Proof.
  assert (Hl : 50 <= length (strip contract_text))
    by (apply Nat.leb_le; vm_compute; reflexivity).
  destruct (analyze_on_parsed_text sample_world (lit "contract.txt") contract_text
              (decodes_result _ _ _ contract_decodes) Hl) as (r & Hr & _).
  destruct (analyze_record_is_consistent sample_world (lit "contract.txt") r Hr)
    as (text & Hp & _ & _ & _ & Hw & Hf & _).
  exists r, text. repeat split; assumption.
Defined.

End Records.

(** ** The mapping of a keyword search *)

Section SearchMapping.
Import TextAnalyzer DocumentParser LegalDocumentAnalyzer.

Lemma dict_set_key_in {V} (k x : str) (v : V) (d : list (str * V)) :
  In x (map fst (dict_set k v d)) -> x = k \/ In x (map fst d).
Proof.
  induction d as [|[k' v'] t IH]; simpl.
  - intros [<-|[]]. left. reflexivity.
  - destruct (str_eqb k' k) eqn:E; simpl.
    + intros [<-|H]; right; [left; reflexivity | right; exact H].
    + intros [<-|H]; [right; left; reflexivity|].
      destruct (IH H) as [->|H']; [left; reflexivity | right; right; exact H'].
Qed.

Lemma dict_set_NoDup {V} (k : str) (v : V) (d : list (str * V)) :
  NoDup (map fst d) -> NoDup (map fst (dict_set k v d)).
Proof.
  induction d as [|[k' v'] t IH]; simpl; intros H.
  - constructor; [intros [] | constructor].
  - inversion H as [|x l Hx Hl]; subst.
    destruct (str_eqb k' k) eqn:E; simpl; [constructor; assumption|].
    constructor; [|apply IH; exact Hl].
    intros Hin. destruct (dict_set_key_in _ _ _ _ Hin) as [->|Hin'].
    + assert (str_eqb k k = true) by (apply str_eqb_eq; reflexivity). congruence.
    + apply Hx. exact Hin'.
Qed.

Lemma dict_set_Forall_key {V} (P : str * V -> Prop) (k : str) (v : V) d :
  P (k, v) -> Forall P d -> Forall P (dict_set k v d).
Proof.
  intros Hv. induction 1 as [|[k' v'] t Hx Ht IH]; simpl.
  - constructor; [exact Hv | constructor].
  - destruct (str_eqb k' k) eqn:E.
    + apply str_eqb_eq in E. subst k'. constructor; assumption.
    + constructor; assumption.
Qed.

Lemma dict_set_length {V} (k : str) (v : V) (d : list (str * V)) :
  length (dict_set k v d) <= S (length d).
Proof.
  induction d as [|[k' v'] t IH]; simpl; [lia|].
  destruct (str_eqb k' k); simpl; lia.
Qed.

(** Assigning to a key the value it has leaves the dictionary as it is. *)
Lemma dict_set_same_value {V} (k : str) (v : V) (d : list (str * V)) :
  dict_get k d = Some v -> dict_set k v d = d.
Proof.
  induction d as [|[k' v'] t IH]; simpl; [discriminate|].
  destruct (str_eqb k' k).
  - intros H. injection H as ->. reflexivity.
  - intros H. rewrite (IH H). reflexivity.
Qed.

Lemma search_keywords_fold (text : str) (keywords : list str) :
  search_keywords text keywords = fold_left (search_step text) keywords [].
Proof. reflexivity. Qed.

Lemma slice_to_cons_nonempty {A} (x : A) (l : list A) :
  slice_to (x :: l) 10 <> [].
Proof. discriminate. Qed.

Lemma search_fold_well_formed (text : str) (all ks : list str) :
  forall acc,
    (forall k, In k ks -> In k all) ->
    NoDup (map fst acc) ->
    Forall (fun kv => In (fst kv) all /\ snd kv <> []) acc ->
    let found := fold_left (search_step text) ks acc in
    NoDup (map fst found) /\
    Forall (fun kv => In (fst kv) all /\ snd kv <> []) found /\
    length found <= length acc + length ks.
Proof.
  induction ks as [|k ks IH]; intros acc Hin Hnd Hall; simpl.
  - repeat split; [assumption..|lia].
  - assert (Hstep : NoDup (map fst (search_step text acc k)) /\
                    Forall (fun kv => In (fst kv) all /\ snd kv <> [])
                           (search_step text acc k) /\
                    length (search_step text acc k) <= S (length acc)).
    { unfold search_step. destruct (keyword_matches text k) as [|s l] eqn:E.
      - repeat split; [assumption..|lia].
      - split; [apply dict_set_NoDup; exact Hnd|]. split.
        + apply dict_set_Forall_key; [|exact Hall]. simpl. split.
          * apply Hin. left. reflexivity.
          * apply slice_to_cons_nonempty.
        + apply dict_set_length. }
    destruct Hstep as (H1 & H2 & H3).
    destruct (IH (search_step text acc k)
                 (fun k' Hk' => Hin k' (or_intror Hk')) H1 H2) as (G1 & G2 & G3).
    repeat split; [assumption..|]. simpl in G3. lia.
Qed.

(** X6. The mapping of [search_keywords] has no key twice; every key is
    one of the keywords asked for; no key has an empty list (a keyword
    without occurrence has no entry); and there are at most as many
    entries as keywords. *)
Theorem search_mapping_is_well_formed (text : str) (keywords : list str) :
  let found := search_keywords text keywords in
  NoDup (map fst found) /\
  Forall (fun kv => In (fst kv) keywords /\ snd kv <> []) found /\
  length found <= length keywords.
Proof.
  intros found. unfold found. rewrite search_keywords_fold.
  destruct (search_fold_well_formed text keywords keywords []
              (fun k H => H) (NoDup_nil _) (Forall_nil _)) as (H1 & H2 & H3).
  repeat split; assumption.
Qed.

Lemma keyword_matches_length (text k : str) :
  length (keyword_matches text k) = length (re_finditer true (re_escape k) text).
Proof. unfold keyword_matches. apply length_map. Qed.

(** X7. The number of snippets reported for a keyword is the number of
    its occurrences in the text (case ignored, not overlapping), capped at
    ten; it is 0 for a keyword that was not asked for. *)
Theorem match_count_is_capped_occurrences (text : str) (keywords : list str) (k : str) :
  match_count text keywords k
  = if str_mem k keywords
    then Nat.min 10 (length (re_finditer true (re_escape k) text))
    else 0.
Proof.
  unfold match_count. rewrite search_keywords_get.
  rewrite <- keyword_matches_length.
  destruct (keyword_matches text k) as [|s l] eqn:E.
  - destruct (str_mem k keywords); reflexivity.
  - destruct (str_mem k keywords); [|reflexivity].
    rewrite (slice_to_nonneg (s :: l) 10) by lia. apply length_firstn.
Qed.

Lemma search_step_known (text : str) (ks : list str) (k : str) :
  In k ks ->
  search_step text (search_keywords text ks) k = search_keywords text ks.
Proof.
  intros Hin. unfold search_step.
  destruct (keyword_matches text k) as [|s l] eqn:E; [reflexivity|].
  apply dict_set_same_value. rewrite search_keywords_get, E.
  rewrite (str_mem_In k ks Hin). reflexivity.
Qed.

(** X8. Asking again for keywords already asked for changes nothing:
    the mapping for a list of keywords followed by repetitions of some of
    them is the mapping for the list. *)
Theorem repeated_keywords_change_nothing (text : str) (ks again : list str) :
  (forall k, In k again -> In k ks) ->
  search_keywords text (ks ++ again) = search_keywords text ks.
Proof.
  intros Hin. rewrite (search_keywords_fold text (ks ++ again)), fold_left_app.
  rewrite <- search_keywords_fold.
  induction again as [|k t IH]; simpl; [reflexivity|].
  rewrite (search_step_known text ks k (Hin k (or_introl eq_refl))).
  apply IH. intros k' H. apply Hin. right. exact H.
Qed.

Lemma repeated_keywords_change_nothing_witness :
  search_keywords contract_text [lit "buyer"; lit "price"; lit "buyer"]
  = search_keywords contract_text [lit "buyer"; lit "price"].
Proof.
  apply (repeated_keywords_change_nothing contract_text
           [lit "buyer"; lit "price"] [lit "buyer"]).
  intros k [<-|[]]. left. reflexivity.
Defined.

Lemma list_sum_zero_nonempty {A} (l : list (str * list A)) :
  Forall (fun kv => snd kv <> []) l ->
  (list_sum (map (fun kv => length (snd kv)) l) = 0 <-> l = []).
Proof.
  intros H. split; [|intros ->; reflexivity].
  destruct H as [|[k v] t Hv Ht]; [reflexivity|].
  simpl in *. destruct v; [congruence | simpl; lia].
Qed.

Lemma list_sum_capped {A} (l : list (str * list A)) (n : nat) :
  Forall (fun kv => length (snd kv) <= n) l ->
  list_sum (map (fun kv => length (snd kv)) l) <= n * length l.
Proof.
  induction 1 as [|kv t Hkv Ht IH]; simpl; [lia|]. lia.
Qed.

Lemma search_record (w : World) (p : str) (keywords : list str) (r : SearchResult) :
  result (search_document p keywords) w = inr r ->
  exists text,
    results r = search_keywords text keywords /\
    total_matches r = list_sum (map (fun kv => length (snd kv)) (results r)).
Proof.
  unfold result, run, search_document, try_except, bind.
  destruct (parse p w []) as [[e|text] log]; [discriminate|].
  unfold ret. cbv beta iota delta [fst]. intros H. injection H as <-.
  exists text. cbn [results total_matches].
  split; [reflexivity | apply fold_left_add_sum].
Qed.

(** X9. In a record of [search_document], [total_matches] is 0 exactly
    when the mapping is empty (the test by which the command line reports
    that nothing was found), and it is at most ten times the number of
    keywords. *)
Theorem total_matches_zero_iff_no_entry
        (w : World) (p : str) (keywords : list str) (r : SearchResult) :
  result (search_document p keywords) w = inr r ->
  (total_matches r = 0 <-> results r = []) /\
  total_matches r <= 10 * length keywords.
Proof.
  intros H. destruct (search_record w p keywords r H) as (text & Hres & Htot).
  destruct (search_fold_well_formed text keywords keywords []
              (fun k Hk => Hk) (NoDup_nil _) (Forall_nil _)) as (_ & Hne & Hlen).
  rewrite <- search_keywords_fold, <- Hres in Hne, Hlen. simpl in Hlen.
  rewrite Htot. split.
  - apply list_sum_zero_nonempty. eapply Forall_impl; [|exact Hne].
    intros kv [_ Hkv]. exact Hkv.
  - pose proof (search_keywords_capped text keywords) as Hcap.
    rewrite <- Hres in Hcap.
    pose proof (list_sum_capped (results r) 10 Hcap). nia.
Qed.

Lemma total_matches_zero_iff_no_entry_witness :
  exists r,
    result (search_document (lit "short.txt") [lit "party"]) sample_world = inr r /\
    total_matches r = 0 /\
    results r = [].
Proof.
  assert (Hp : result (parse (lit "short.txt")) sample_world = inr (lit "Short"))
    by (apply decodes_result; exact short_decodes).
  destruct (search_on_parsed_text sample_world (lit "short.txt") (lit "Short")
              [lit "party"] Hp) as (r & Hr & _ & Hres & _).
  exists r. split; [exact Hr|].
  assert (He : results r = []) by (rewrite Hres; vm_compute; reflexivity).
  split; [|exact He].
  apply (proj1 (total_matches_zero_iff_no_entry
                  sample_world (lit "short.txt") [lit "party"] r Hr)).
  exact He.
Defined.

End SearchMapping.

(** ** What the extractors keep *)

Section Extracts.
Import TextAnalyzer.

Lemma preview_length (n : nat) (s : str) : length (preview n s) <= n + 3.
Proof.
  unfold preview. destruct (n <? length s) eqn:E.
  - rewrite length_app, slice_to_nonneg by lia.
    rewrite Nat2Z.id, length_firstn. change (length (lit "...")) with 3. lia.
  - apply Nat.ltb_ge in E. lia.
Qed.

Lemma preview_keeps_long (n m : nat) (s : str) :
  m <= n -> m < length s -> m < length (preview n s).
Proof.
  intros Hmn Hs. unfold preview. destruct (n <? length s) eqn:E; [|exact Hs].
  apply Nat.ltb_lt in E.
  rewrite length_app, slice_to_nonneg by lia.
  rewrite Nat2Z.id, length_firstn. change (length (lit "...")) with 3. lia.
Qed.

Lemma Forall_slice_to {A} (P : A -> Prop) (l : list A) (k : Z) :
  Forall P l -> Forall P (slice_to l k).
Proof.
  intros H. destruct (slice_to_is_firstn l k) as [n ->].
  rewrite <- (firstn_skipn n l) in H. apply Forall_app in H. tauto.
Qed.

Lemma contributions_all (P : Clause -> Prop) (lines : list str) :
  (forall i line clauses, Forall P (line_clauses lines i line clauses)) ->
  forall numbered clauses, Forall P (concat (contributions lines numbered clauses)).
Proof.
  intros H. induction numbered as [|il rest IH]; intros clauses; simpl.
  - constructor.
  - apply Forall_app. split; [apply H | apply IH].
Qed.

Lemma try_obligation_all (P : str -> Prop) (sentence : str) (patterns : list regex)
      (obligations : list str) :
  (20 < length sentence -> P (preview 200 sentence)) ->
  Forall P obligations ->
  Forall P (try_obligation sentence patterns obligations).
Proof.
  intros Hs Ho. induction patterns as [|pattern more IH]; simpl; [exact Ho|].
  destruct (re_search true pattern sentence); [|exact IH].
  destruct (20 <? length sentence) eqn:E; [|exact Ho].
  apply Nat.ltb_lt in E. apply Forall_app. split; [exact Ho|].
  constructor; [apply Hs; exact E | constructor].
Qed.

Lemma obligations_loop_all (P : str -> Prop) :
  (forall s, 20 < length s -> P (preview 200 s)) ->
  forall pieces acc,
    Forall P acc ->
    Forall P (fold_left (fun obligations sentence =>
                           let sentence := strip sentence in
                           match sentence with
                           | [] => obligations
                           | _ => try_obligation sentence obligation_patterns
                                                 obligations
                           end)
                        pieces acc).
Proof.
  intros HP. induction pieces as [|piece rest IH]; intros acc Hacc;
    cbn [fold_left]; [exact Hacc|].
  apply IH. cbv zeta. destruct (strip piece) as [|c t] eqn:E; [exact Hacc|].
  apply try_obligation_all; [apply HP | exact Hacc].
Qed.

(** X10. The previews are bounded: the text of every clause has at most
    203 characters (200 and the ellipsis), and every obligation has more
    than 20 and at most 203. *)
Theorem previews_are_bounded (doc : str) :
  Forall (fun c => length (TextAnalyzer.text c) <= 203) (extract_clauses doc) /\
  Forall (fun o => 20 < length o <= 203) (extract_obligations doc).
Proof.
  split.
  - unfold extract_clauses. cbv zeta. rewrite clauses_loop_contributions.
    rewrite app_nil_l. apply contributions_all.
    intros i line clauses. unfold line_clauses.
    destruct (first_marker line); constructor; [|constructor].
    unfold make_clause. cbn [TextAnalyzer.text]. apply (preview_length 200).
  - unfold extract_obligations. cbv zeta. apply Forall_slice_to.
    apply obligations_loop_all; [|constructor].
    intros s Hs. split.
    + apply preview_keeps_long; [lia | exact Hs].
    + apply (preview_length 200).
Qed.

Lemma slice_chars {A} (l : list A) (lo hi : nat) (x : A) :
  In x (slice l lo hi) -> In x l.
Proof.
  unfold slice. intros H. rewrite <- (firstn_skipn lo l). apply in_or_app. right.
  rewrite <- (firstn_skipn (hi - lo) (skipn lo l)). apply in_or_app. left. exact H.
Qed.

Lemma group_chars (s : str) (m : rmatch) (n : nat) (c : ascii) :
  In c (group s m n) -> In c s.
Proof.
  unfold group. destruct (span_of n (spans (m_marks m))) as [[b e]|]; [|intros []].
  apply slice_chars.
Qed.

(** The characters of a piece of [s.split(sep)] are characters of [s]. *)
Lemma split_char_chars (sep : ascii) (s : str) :
  forall piece c, In piece (split_char sep s) -> In c piece -> In c s.
Proof.
  induction s as [|x t IH]; intros piece c Hp Hc; simpl in Hp.
  - destruct Hp as [<-|[]]. destruct Hc.
  - destruct (Ascii.eqb x sep).
    + destruct Hp as [<-|Hp]; [destruct Hc|]. right. eapply IH; eassumption.
    + destruct (split_char sep t) as [|h r] eqn:E.
      * destruct Hp as [<-|[]]. destruct Hc as [<-|[]]. left. reflexivity.
      * destruct Hp as [<-|Hp].
        -- destruct Hc as [<-|Hc]; [left; reflexivity|].
           right. apply (IH h c); [left; reflexivity | exact Hc].
        -- right. apply (IH piece c); [right; exact Hp | exact Hc].
Qed.

Lemma no_digit_no_marker (line : str) :
  (forall c, In c line -> is_digit c = false) -> first_marker line = None.
Proof.
  intros H.
  assert (G : forall pattern m,
             In pattern clause_patterns ->
             re_search true pattern line = Some m -> False).
  { intros pattern m Hin Hs.
    destruct (clause_pattern_captures pattern line m Hin Hs) as [_ Hn].
    destruct (group line m 1) as [|d t] eqn:Eg; simpl in Hn; [discriminate|].
    apply andb_true_iff in Hn as [Hd _].
    assert (Hd' : is_digit d = false).
    { apply H. apply (group_chars line m 1). rewrite Eg. left. reflexivity. }
    congruence. }
  unfold first_marker.
  destruct (re_search true labeled_marker line) as [m|] eqn:E1.
  - exfalso. apply (G labeled_marker m); [left; reflexivity | exact E1].
  - destruct (re_search true numeric_marker line) as [m|] eqn:E2; [|reflexivity].
    exfalso. apply (G numeric_marker m); [right; left; reflexivity | exact E2].
Qed.

Lemma contributions_none (lines : list str) (numbered : list (nat * str)) :
  (forall il, In il numbered -> first_marker (snd il) = None) ->
  forall clauses, concat (contributions lines numbered clauses) = [].
Proof.
  induction numbered as [|il rest IH]; intros H clauses; simpl; [reflexivity|].
  unfold line_clauses at 1. rewrite (H il (or_introl eq_refl)). simpl.
  apply IH. intros il' Hil'. apply H. right. exact Hil'.
Qed.

Lemma existsb_none {A} (p : A -> bool) (l : list A) (x : A) :
  existsb p l = false -> In x l -> p x = false.
Proof.
  induction l as [|y t IH]; simpl; [intros _ []|].
  intros H. apply orb_false_iff in H as [Hy Ht].
  intros [<-|Hx]; [exact Hy | apply IH; assumption].
Qed.

(** X11. A text without a digit has no clause: both markers need a
    number, so headings such as [Section One] are never clauses. *)
Theorem no_digit_no_clause (doc : str) :
  existsb is_digit doc = false -> extract_clauses doc = [].
Proof.
  intros H. unfold extract_clauses. cbv zeta. rewrite clauses_loop_contributions.
  rewrite app_nil_l. apply contributions_none.
  intros il Hil. apply no_digit_no_marker. intros c Hc.
  apply (existsb_none is_digit doc c H).
  apply (split_char_chars newline doc (snd il) c); [|exact Hc].
  apply (enumerate_from_In (split_char newline doc) 0 il). exact Hil.
Qed.

Lemma no_digit_no_clause_witness :
  extract_clauses (lit "Section One: the parties shall meet.") = [].
Proof.
  apply (no_digit_no_clause (lit "Section One: the parties shall meet.")).
  reflexivity.
Defined.

Lemma match_at_sound (ic : bool) (r : regex) (prev : option ascii) (rest : str)
      (pos : nat) (adv : bool) (m : rmatch) :
  match_at ic r prev rest pos adv = Some m ->
  exists w rest',
    rest = w ++ rest' /\
    m_start m = pos /\
    m_end m = pos + length w /\
    spells ic r pos w no_marks (m_marks m).
Proof.
  unfold match_at. intros H.
  apply rmatch_k_sound in H as (w & rest' & mk' & Hr & Hs & Hk).
  destruct (adv && (pos + length w =? pos)); [discriminate|].
  injection Hk as <-. exists w, rest'. repeat split; assumption.
Qed.

Lemma scan_In (ic : bool) (r : regex) (prev : option ascii) (rest : str)
      (pos resume : nat) (m : rmatch) :
  In m (scan ic r prev rest pos resume) ->
  (exists adv, match_at ic r prev rest pos adv = Some m) \/
  (exists c t resume', rest = c :: t /\ In m (scan ic r (Some c) t (S pos) resume')).
Proof.
  intros H.
  assert (Hfound : forall found,
             found = (if pos <? resume then []
                      else match match_at ic r prev rest pos false with
                           | None => []
                           | Some m0 =>
                               if m_end m0 =? pos
                               then m0 :: match match_at ic r prev rest pos true with
                                          | Some m' => [m']
                                          | None => []
                                          end
                               else [m0]
                           end) ->
             In m found -> exists adv, match_at ic r prev rest pos adv = Some m).
  { intros found -> Hin. destruct (pos <? resume); [destruct Hin|].
    destruct (match_at ic r prev rest pos false) as [m0|] eqn:E0; [|destruct Hin].
    destruct (m_end m0 =? pos).
    - destruct Hin as [<-|Hin]; [exists false; exact E0|].
      destruct (match_at ic r prev rest pos true) as [m1|] eqn:E1; [|destruct Hin].
      destruct Hin as [<-|[]]. exists true. exact E1.
    - destruct Hin as [<-|[]]. exists false. exact E0. }
  destruct rest as [|c t]; simpl in H; apply in_app_or in H as [H|H].
  - left. eapply Hfound; [reflexivity | exact H].
  - destruct H.
  - left. eapply Hfound; [reflexivity | exact H].
  - right. eexists c, t, _. split; [reflexivity | exact H].
Qed.

(** Every match that [re.finditer] yields lies in the text, and the
    pattern spells the matched characters. *)
Lemma scan_sound (ic : bool) (r : regex) (rest : str) :
  forall prev pos resume m,
    In m (scan ic r prev rest pos resume) ->
    exists skipped w rest',
      rest = skipped ++ w ++ rest' /\
      m_start m = pos + length skipped /\
      m_end m = m_start m + length w /\
      spells ic r (m_start m) w no_marks (m_marks m).
Proof.
  induction rest as [|c t IH]; intros prev pos resume m H;
    apply scan_In in H as [[adv H]|(c' & t' & resume' & Hr & H)].
  - apply match_at_sound in H as (w & rest' & Hw & Hst & Hen & Hs).
    exists [], w, rest'. simpl. rewrite Hst, Nat.add_0_r.
    repeat split; [exact Hw | exact Hen | exact Hs].
  - discriminate.
  - apply match_at_sound in H as (w & rest' & Hw & Hst & Hen & Hs).
    exists [], w, rest'. simpl. rewrite Hst, Nat.add_0_r.
    repeat split; [exact Hw | exact Hen | exact Hs].
  - injection Hr as <- <-.
    apply IH in H as (skipped & w & rest' & -> & Hst & Hen & Hs).
    exists (c :: skipped), w, rest'. simpl.
    repeat split; [lia | exact Hen | exact Hs].
Qed.

Lemma scan_nil (ic : bool) (r : regex) (prev : option ascii) (pos resume : nat) :
  scan ic r prev [] pos resume = scan_found ic r prev [] pos resume.
Proof. unfold scan, scan_found. apply app_nil_r. Qed.

Lemma scan_cons (ic : bool) (r : regex) (prev : option ascii) (c : ascii) (t : str)
      (pos resume : nat) :
  scan ic r prev (c :: t) pos resume
  = scan_found ic r prev (c :: t) pos resume
    ++ scan ic r (Some c) t (S pos)
            (last (map m_end (scan_found ic r prev (c :: t) pos resume)) resume).
Proof. reflexivity. Qed.

(** *** The scanner on [a+] *)

Lemma match_at_plus_none (ic : bool) (a : atom) (prev : option ascii) (rest : str)
      (pos : nat) (adv : bool) :
  match rest with
  | [] => True
  | c :: _ => atom_match ic a c = false
  end ->
  match_at ic (RPlus a) prev rest pos adv = None.
Proof.
  unfold match_at. destruct rest as [|c t]; simpl; [reflexivity|].
  intros ->. reflexivity.
Qed.

Lemma match_at_plus_some (ic : bool) (a : atom) (prev : option ascii) (rest : str)
      (pos : nat) (adv : bool) (m : rmatch) :
  match_at ic (RPlus a) prev rest pos adv = Some m ->
  m_start m = pos /\ pos < m_end m /\ m_end m <= pos + length rest.
Proof.
  intros H. apply match_at_sound in H as (w & rest' & Hw & Hst & Hen & Hs).
  inversion Hs as [| | |a0 c w0 p0 m3 Hc Hw0| | | | | | |]; subst.
  rewrite length_app. simpl in *. repeat split; lia.
Qed.

Lemma rep_answers (R : Type) (ic : bool) (a : atom) (rest : str) :
  forall prev pos (k : kont R),
    (forall p s q, k p s q <> None) -> rep ic a prev rest pos k <> None.
Proof.
  induction rest as [|c t IH]; intros prev pos k Hk; simpl; [apply Hk|].
  destruct (atom_match ic a c); [|apply Hk].
  destruct (rep ic a (Some c) t (S pos) k) eqn:E; [discriminate | apply Hk].
Qed.

Lemma match_at_plus_found (ic : bool) (a : atom) (prev : option ascii) (c : ascii)
      (t : str) (pos : nat) :
  atom_match ic a c = true ->
  match_at ic (RPlus a) prev (c :: t) pos false <> None.
Proof.
  intros Hc. unfold match_at. simpl. rewrite Hc.
  apply rep_answers. intros p s q. discriminate.
Qed.

Lemma slice_empty {A} (l : list A) (lo hi : nat) : hi <= lo -> slice l lo hi = [].
Proof.
  intros H. unfold slice. replace (hi - lo) with 0 by lia. reflexivity.
Qed.

Lemma slice_snoc {A} (done : list A) (c : A) (t : list A) (lo : nat) :
  lo <= length done ->
  slice (done ++ c :: t) lo (S (length done))
  = slice (done ++ c :: t) lo (length done) ++ [c].
Proof.
  intros H. unfold slice. rewrite skipn_app.
  replace (lo - length done) with 0 by lia. cbn [skipn].
  assert (Hd : length (skipn lo done) = length done - lo) by apply length_skipn.
  rewrite !firstn_app, Hd.
  replace (S (length done) - lo - (length done - lo)) with 1 by lia.
  replace (length done - lo - (length done - lo)) with 0 by lia.
  replace (firstn (S (length done) - lo) (skipn lo done)) with (skipn lo done)
    by (symmetry; apply firstn_all2; lia).
  replace (firstn (length done - lo) (skipn lo done)) with (skipn lo done)
    by (symmetry; apply firstn_all2; lia).
  cbn [firstn]. rewrite app_nil_r. reflexivity.
Qed.

(** The stretches that [re.split] leaves between the matches of [a+] hold
    no character that [a] accepts: the scanner misses no occurrence. *)
Lemma scan_plus_gaps (ic : bool) (a : atom) (s : str) :
  forall rest done prev resume,
    s = done ++ rest ->
    resume <= length s ->
    Forall (fun c => atom_match ic a c = false) (slice s resume (length done)) ->
    Forall (Forall (fun c => atom_match ic a c = false))
           (between_matches s resume
                            (scan ic (RPlus a) prev rest (length done) resume)).
Proof.
  induction rest as [|c t IH]; intros done prev resume Hs Hres Hinv.
  - rewrite scan_nil. unfold scan_found.
    rewrite (match_at_plus_none ic a prev [] (length done) false I).
    assert (Hlen : length s = length done)
      by (rewrite Hs, app_nil_r; reflexivity).
    destruct (length done <? resume); simpl; rewrite Hlen;
      (constructor; [exact Hinv | constructor]).
  - assert (Hs' : s = (done ++ [c]) ++ t)
      by (rewrite <- app_assoc; exact Hs).
    assert (Hpos : S (length done) = length (done ++ [c]))
      by (rewrite length_app; simpl; lia).
    assert (Hlen : length s = length done + S (length t))
      by (rewrite Hs, length_app; reflexivity).
    rewrite scan_cons. unfold scan_found.
    destruct (Nat.ltb_spec (length done) resume) as [Hlt|Hge].
    + simpl. rewrite Hpos. apply IH; [exact Hs' | exact Hres|].
      rewrite <- Hpos. rewrite slice_empty by lia. constructor.
    + destruct (atom_match ic a c) eqn:Ec.
      * destruct (match_at ic (RPlus a) prev (c :: t) (length done) false)
          as [m|] eqn:Em;
          [|exfalso; exact (match_at_plus_found ic a prev c t (length done) Ec Em)].
        destruct (match_at_plus_some ic a prev (c :: t) (length done) false m Em)
          as (Hst & Hgt & Hle).
        destruct (Nat.eqb_spec (m_end m) (length done)) as [He|_]; [lia|].
        simpl. constructor; [rewrite Hst; exact Hinv|].
        rewrite Hpos. apply IH; [exact Hs' | simpl in Hle; lia|].
        rewrite <- Hpos. rewrite slice_empty by lia. constructor.
      * rewrite (match_at_plus_none ic a prev (c :: t) (length done) false Ec).
        simpl. rewrite Hpos. apply IH; [exact Hs' | exact Hres|].
        rewrite <- Hpos. rewrite Hs, slice_snoc by exact Hge. rewrite <- Hs.
        apply Forall_app. split; [exact Hinv|]. constructor; [exact Ec | constructor].
Qed.

Lemma quote_atom_is_quote (c : ascii) :
  atom_match true (ALit quote) c = true -> c = quote.
Proof.
  destruct c as [b0 b1 b2 b3 b4 b5 b6 b7].
  destruct b0, b1, b2, b3, b4, b5, b6, b7; vm_compute; intros H;
    first [reflexivity | discriminate H].
Qed.

Lemma not_quote_atom (c : ascii) :
  atom_match true (ASet true [CChar quote]) c = true -> c <> quote.
Proof.
  destruct c as [b0 b1 b2 b3 b4 b5 b6 b7].
  destruct b0, b1, b2, b3, b4, b5, b6, b7; vm_compute; intros H E;
    first [discriminate H | discriminate E].
Qed.

(** What a match of the quoted-term pattern captures: a non-empty run
    without a quote, in a text that has a quote. *)
Lemma quoted_term_captures (doc : str) (m : rmatch) :
  In m (re_finditer true quoted_term doc) ->
  group doc m 1 <> [] /\
  Forall (fun c => c <> quote) (group doc m 1) /\
  In quote doc.
Proof.
  unfold re_finditer. intros H.
  apply scan_sound in H as (skipped & w & rest' & Hl & Hst & Hen & Hsp).
  simpl in Hst.
  assert (Hq : exists w', w = quote :: w').
  { unfold quoted_term in Hsp. simpl in Hsp.
    inversion Hsp as [| | | | | | |r1 r2 w1 w2 p m0 m1 m2 H1 H2| | |]; subst.
    inversion H1 as [|a c p0 m3 Hc| | | | | | | | |]; subst.
    exists w2. rewrite (quote_atom_is_quote c Hc). reflexivity. }
  change quoted_term
    with (r_seq ([RAtom (ALit quote)]
                   ++ RGroup 1 (RPlus (ASet true [CChar quote]))
                   :: [RAtom (ALit quote); RPlus a_space;
                       r_alt [r_word "means"; r_word "shall mean";
                              r_word "refers to"; r_word "is defined as"]])) in Hsp.
  apply spells_seq_single_group in Hsp; [|reflexivity..].
  destruct Hsp as (w1 & wg & w2 & Hw & Hg & Hm).
  assert (Hgroup : group doc m 1 = wg).
  { unfold group. rewrite Hm. simpl. subst doc w. rewrite Hst.
    replace (skipped ++ (w1 ++ wg ++ w2) ++ rest')
      with ((skipped ++ w1) ++ wg ++ (w2 ++ rest'))
      by (rewrite <- !app_assoc; reflexivity).
    rewrite <- length_app. apply slice_middle. }
  rewrite Hgroup.
  inversion Hg as [| | |a c w0 p0 m3 Hc Hw0| | | | | | |]; subst.
  split; [discriminate|]. split.
  - constructor; [apply not_quote_atom; exact Hc|].
    eapply Forall_impl; [|exact Hw0]. intros c0. apply not_quote_atom.
  - destruct Hq as [w' Hq]. rewrite Hq. apply in_or_app. right. left. reflexivity.
Qed.

(** X12. Every term that [extract_definitions] reports is a non-empty
    run of characters without a double quote (what stood between two
    quotes of the text); a text without a double quote has no definition,
    whatever defining words it uses. *)
Theorem defined_terms_are_quoted (doc : str) :
  Forall (fun d => term d <> [] /\ ~ In quote (term d)) (extract_definitions doc) /\
  (~ In quote doc -> extract_definitions doc = []).
Proof.
  assert (Hall : Forall (fun d => term d <> [] /\ ~ In quote (term d) /\ In quote doc)
                        (extract_definitions doc)).
  { unfold extract_definitions. cbv zeta. apply Forall_slice_to.
    apply Forall_forall. intros d Hd.
    apply in_map_iff in Hd as (m & <- & Hm). cbn [term].
    change (nth 0 definition_patterns REps) with quoted_term in Hm.
    destruct (quoted_term_captures doc m Hm) as (Hne & Hnq & Hin).
    split; [exact Hne|]. split; [|exact Hin].
    intros Hq. rewrite Forall_forall in Hnq. apply (Hnq quote Hq). reflexivity. }
  split.
  - eapply Forall_impl; [|exact Hall]. intros d (H1 & H2 & _). split; assumption.
  - intros Hno. destruct (extract_definitions doc) as [|d t]; [reflexivity|].
    inversion Hall as [|d' t' (_ & _ & Hin) _]; subst. contradiction.
Qed.

End Extracts.

(** ** Sentences, summaries and key points *)

Section SummaryShape.
Import DocumentSummarizer.

Lemma drop_while_head {A} (p : A -> bool) (l : list A) (x : A) (t : list A) :
  drop_while p l = x :: t -> p x = false.
Proof.
  induction l as [|a l' IH]; simpl; [discriminate|].
  destruct (p a) eqn:E; [exact IH|]. intros H. injection H as <- <-. exact E.
Qed.

Lemma drop_while_fixed {A} (p : A -> bool) (l : list A) :
  match l with [] => True | x :: _ => p x = false end -> drop_while p l = l.
Proof. destruct l as [|x t]; simpl; [reflexivity | intros ->; reflexivity]. Qed.

Lemma drop_while_idem {A} (p : A -> bool) (l : list A) :
  drop_while p (drop_while p l) = drop_while p l.
Proof.
  apply drop_while_fixed. destruct (drop_while p l) as [|x t] eqn:E; [exact I|].
  apply (drop_while_head p l x t E).
Qed.

Lemma drop_while_split {A} (p : A -> bool) (l : list A) :
  exists pre, l = pre ++ drop_while p l.
Proof.
  induction l as [|a l' [pre IH]]; simpl; [exists []; reflexivity|].
  destruct (p a); [|exists []; reflexivity].
  exists (a :: pre). simpl. f_equal. exact IH.
Qed.

Lemma rstrip_prefix (s : str) : exists sfx, s = rstrip s ++ sfx.
Proof.
  unfold rstrip. destruct (drop_while_split is_space (rev s)) as [pre H].
  exists (rev pre). rewrite <- rev_app_distr, <- H, rev_involutive. reflexivity.
Qed.

(** [strip] changes nothing in what it returns. *)
Lemma strip_strip (s : str) : strip (strip s) = strip s.
Proof.
  unfold strip. set (l := lstrip s).
  assert (Hl : lstrip (rstrip l) = rstrip l).
  { apply drop_while_fixed. destruct (rstrip l) as [|x t] eqn:E; [exact I|].
    destruct (rstrip_prefix l) as [sfx Hs]. rewrite E in Hs. simpl in Hs.
    unfold l, lstrip in Hs. apply (drop_while_head is_space s x (t ++ sfx) Hs). }
  rewrite Hl. unfold rstrip. rewrite rev_involutive, drop_while_idem. reflexivity.
Qed.

Lemma drop_while_chars {A} (p : A -> bool) (l : list A) (x : A) :
  In x (drop_while p l) -> In x l.
Proof.
  intros H. destruct (drop_while_split p l) as [pre Hl]. rewrite Hl.
  apply in_or_app. right. exact H.
Qed.

Lemma strip_chars (s : str) (c : ascii) : In c (strip s) -> In c s.
Proof.
  unfold strip, rstrip, lstrip. intros H.
  apply in_rev in H. apply drop_while_chars in H. apply in_rev in H.
  apply drop_while_chars in H. exact H.
Qed.

Lemma sentence_end_rejects (c : ascii) :
  atom_match false (ASet false [CChar "."; CChar "!"; CChar "?"]) c = false ->
  ~ In c (lit ".!?").
Proof.
  intros H [<-|[<-|[<-|[]]]]; vm_compute in H; discriminate H.
Qed.

Lemma split_pieces_have_no_end (text : str) :
  Forall (Forall (fun c => ~ In c (lit ".!?")))
         (re_split false TextAnalyzer.sentence_end text).
Proof.
  unfold re_split, re_finditer, TextAnalyzer.sentence_end.
  pose proof (scan_plus_gaps false (ASet false [CChar "."; CChar "!"; CChar "?"])
                             text text [] None 0 eq_refl (Nat.le_0_l _)) as H.
  cbn [length] in H. specialize (H (Forall_nil _)).
  eapply Forall_impl; [|exact H]. intros piece Hp.
  eapply Forall_impl; [|exact Hp]. intros c. apply sentence_end_rejects.
Qed.

(** X13. Every sentence that [_split_sentences] returns has more than 20
    characters, neither starts nor ends with white space (stripping it
    again changes nothing), and contains none of the characters [.], [!]
    and [?] that end a sentence. *)
Theorem sentences_are_long_and_stripped (text : str) :
  Forall (fun s => 20 < length s /\ strip s = s /\
                   forall c, In c s -> ~ In c (lit ".!?"))
         (_split_sentences text).
Proof.
  unfold _split_sentences. apply Forall_forall. intros s Hs.
  apply in_map_iff in Hs as (piece & <- & Hp).
  apply filter_In in Hp as [Hpiece Hp].
  split; [|split; [apply strip_strip|]].
  - destruct (strip piece) as [|c t] eqn:E; [discriminate|].
    apply Nat.ltb_lt in Hp. exact Hp.
  - intros c Hc. apply strip_chars in Hc.
    pose proof (split_pieces_have_no_end text) as Hall.
    rewrite Forall_forall in Hall. specialize (Hall piece Hpiece).
    rewrite Forall_forall in Hall. apply Hall. exact Hc.
Qed.

Lemma slice_to_length {A} (l : list A) (k : Z) :
  length (slice_to l k)
  = if (k <? 0)%Z then length l - Z.to_nat (- k) else Nat.min (Z.to_nat k) (length l).
Proof.
  unfold slice_to. destruct (k <? 0)%Z; rewrite length_firstn; lia.
Qed.

Lemma slice_to_same_length {A B} (l : list A) (l' : list B) (k : Z) :
  length l = length l' -> length (slice_to l k) = length (slice_to l' k).
Proof. intros H. rewrite !slice_to_length, H. reflexivity. Qed.

Lemma score_sentences_length (sentences : list str) (text : str) :
  length (_score_sentences sentences text) = length sentences.
Proof.
  unfold _score_sentences, enumerate. rewrite length_map. apply enumerate_from_length.
Qed.

Lemma selection_count (sentences : list str) (text : str) (k : Z) :
  length (selection sentences text k) = length (slice_to sentences k).
Proof.
  unfold selection. rewrite (Permutation_length (py_sort_perm _ _ _ _ _ _)).
  apply slice_to_same_length.
  rewrite (Permutation_length (py_sort_perm _ _ _ _ _ _)).
  apply score_sentences_length.
Qed.

Lemma subseq_full {A} (l1 l2 : list A) :
  subseq l1 l2 -> length l2 <= length l1 -> l1 = l2.
Proof.
  induction 1 as [l|x l1 l2 Hs IH|x l1 l2 Hs IH]; simpl; intros Hlen.
  - destruct l; [reflexivity | simpl in Hlen; lia].
  - apply subseq_length in Hs. lia.
  - f_equal. apply IH. lia.
Qed.

Lemma enumerate_from_snd {A} (l : list A) (i : nat) :
  map snd (enumerate_from i l) = l.
Proof.
  revert i. induction l as [|x t IH]; intros i; simpl; [reflexivity|].
  rewrite IH. reflexivity.
Qed.

Lemma summarize_by_selection (text : str) (max_sentences : option Z) :
  summarize text max_sentences
  = match _split_sentences text with
    | [] => no_content
    | _ :: _ =>
        join (lit " ")
             (map snd (map tag (selection (_split_sentences text) text
                                          (match max_sentences with
                                           | None => max_summary_sentences
                                           | Some k => k
                                           end))))
    end.
Proof.
  destruct (_split_sentences text) as [|s0 rest] eqn:E.
  - unfold summarize. rewrite E. reflexivity.
  - rewrite (summarize_unfold text max_sentences) by (rewrite E; discriminate).
    rewrite E, map_map. reflexivity.
Qed.

(** X14. For every [max_sentences], negative ones included, the summary
    is made of exactly as many sentences as the slice [sentences[:k]] of
    the sentences of the text has (all of them when [k] is at least their
    number, none when [k] is 0, all but the last [-k] when [k] is
    negative), taken in the order of the text. *)
Theorem summary_has_as_many_sentences_as_the_slice
        (text : str) (max_sentences : option Z) :
  let k := match max_sentences with
           | None => max_summary_sentences
           | Some k => k
           end in
  exists picked : list (nat * str),
    subseq picked (enumerate (_split_sentences text)) /\
    length picked = length (slice_to (_split_sentences text) k) /\
    summarize text max_sentences
    = match _split_sentences text with
      | [] => no_content
      | _ :: _ => join (lit " ") (map snd picked)
      end.
Proof.
  intros k. exists (map tag (selection (_split_sentences text) text k)).
  split; [apply selection_in_order|]. split.
  - rewrite length_map. apply selection_count.
  - apply summarize_by_selection.
Qed.

(** X15. A text with at most [max_sentences] sentences is summarized
    by all of them, in their order, joined by single spaces: with the
    default of 10, a document of up to ten sentences is its own summary,
    sentence for sentence. *)
Theorem few_sentences_are_all_kept (text : str) (max_sentences : option Z) :
  let k := match max_sentences with
           | None => max_summary_sentences
           | Some k => k
           end in
  (Z.of_nat (length (_split_sentences text)) <= k)%Z ->
  summarize text max_sentences
  = match _split_sentences text with
    | [] => no_content
    | _ :: _ => join (lit " ") (_split_sentences text)
    end.
Proof.
  intros k Hk. rewrite summarize_by_selection.
  destruct (_split_sentences text) as [|s0 rest] eqn:E; [reflexivity|].
  rewrite <- E in *. fold k.
  assert (Hall : map tag (selection (_split_sentences text) text k)
                 = enumerate (_split_sentences text)).
  { apply subseq_full; [apply selection_in_order|].
    rewrite length_map, selection_count, slice_to_length.
    unfold enumerate. rewrite enumerate_from_length.
    destruct (Z.ltb_spec k 0); lia. }
  rewrite Hall. unfold enumerate. rewrite enumerate_from_snd. reflexivity.
Qed.

Lemma few_sentences_are_all_kept_witness :
  summarize contract_text None = join (lit " ") (_split_sentences contract_text).
Proof.
  pose proof (few_sentences_are_all_kept contract_text None) as H.
  cbv zeta in H. rewrite H; [vm_compute; reflexivity | vm_compute; discriminate].
Defined.

Lemma filter_nil_iff {A} (f : A -> bool) (l : list A) :
  filter f l = [] <-> existsb f l = false.
Proof.
  induction l as [|x t IH]; simpl; [tauto|].
  destruct (f x); simpl; [split; discriminate | exact IH].
Qed.

(** X16. [generate_key_points] returns at most ten points: one line and
    up to three bullets for the definitions, the same for the obligations,
    one line for the clauses and one for the critical terms. It returns
    none exactly when there is no clause, no definition, no obligation,
    and no critical term occurs in the text. *)
Theorem key_points_are_at_most_ten
        (text : str) (clauses : list TextAnalyzer.Clause)
        (definitions : list TextAnalyzer.Definition_) (obligations : list str) :
  length (generate_key_points text clauses definitions obligations) <= 10 /\
  (generate_key_points text clauses definitions obligations = [] <->
   clauses = [] /\ definitions = [] /\ obligations = [] /\
   existsb (fun term => contains term (str_lower text)) critical_terms = false).
Proof.
  rewrite <- filter_nil_iff. unfold generate_key_points. cbv zeta.
  assert (Hd : length (slice_to definitions 3) <= 3)
    by (apply (slice_to_length_le definitions 3%Z); lia).
  assert (Ho : length (slice_to obligations 3) <= 3)
    by (apply (slice_to_length_le obligations 3%Z); lia).
  destruct (filter (fun term => contains term (str_lower text)) critical_terms)
    as [|f fl];
    destruct clauses as [|c cl]; destruct definitions as [|d dl];
    destruct obligations as [|o ol]; cbv beta iota;
    (split;
     [ rewrite ?length_app, ?length_map; cbn [length]; unfold str in *; lia
     | split;
       [ intros H; try (repeat split; reflexivity);
         apply (f_equal (@length str)) in H;
         rewrite ?length_app, ?length_map in H; cbn [length] in H; lia
       | intros (H1 & H2 & H3 & H4); try reflexivity; discriminate ] ]).
Qed.

End SummaryShape.

(** ** The front ends *)

Section FrontEnds.
Import DocumentParser.

Lemma rfind_from_lower (c : ascii) (s : str) :
  forall i found, (-1 <= found)%Z -> (0 <= i)%Z -> (-1 <= rfind_from c s i found)%Z.
Proof.
  induction s as [|x t IH]; intros i found Hf Hi; simpl; [exact Hf|].
  destruct (Ascii.eqb x c); apply IH; lia.
Qed.

Lemma char_lower_dot (c : ascii) : char_lower c = "."%char -> c = "."%char.
Proof.
  destruct c as [b0 b1 b2 b3 b4 b5 b6 b7].
  destruct b0, b1, b2, b3, b4, b5, b6, b7; vm_compute; intros H;
    first [reflexivity | discriminate H].
Qed.

Lemma contains_single (c : ascii) (s : str) : In c s -> contains [c] s = true.
Proof.
  induction s as [|x t IH]; [intros []|].
  intros [->|H]; simpl.
  - rewrite Ascii.eqb_refl. reflexivity.
  - rewrite (IH H). apply orb_true_r.
Qed.

(** The extension that the parser accepts starts at the last dot, which
    is where the upload filter cuts the name. *)
Lemma supported_extension_cut (p : str) :
  str_mem (extension p) SUPPORTED_FORMATS = true ->
  (0 <= rfind "." p)%Z /\
  extension p = str_lower (skipn (Z.to_nat (rfind "." p)) p).
Proof.
  unfold extension, splitext.
  destruct ((rfind "/" p <? rfind "." p)%Z
            && has_non_dot (slice p (Z.to_nat (rfind "/" p + 1))
                                  (Z.to_nat (rfind "." p)))) eqn:E.
  - intros _. apply andb_true_iff in E as [E _]. apply Z.ltb_lt in E.
    pose proof (rfind_from_lower "/" p 0 (-1)) as H. unfold rfind in *.
    split; [lia | reflexivity].
  - simpl. discriminate.
Qed.

(** X17. A name whose extension the parser supports passes the upload
    filter [allowed_file] of the web front end: the filter refuses no file
    that [parse] could read. *)
Theorem parser_formats_pass_the_upload_filter (p : str) :
  str_mem (extension p) SUPPORTED_FORMATS = true -> App.allowed_file p = true.
Proof.
  intros H. destruct (supported_extension_cut p H) as [Hdot Hext].
  rewrite Hext in H.
  set (n := Z.to_nat (rfind "." p)) in *.
  assert (Hcut : exists c rest,
             skipn n p = c :: rest /\ char_lower c = "."%char /\
             str_mem (str_lower rest) [lit "pdf"; lit "docx"; lit "txt"] = true).
  { destruct (skipn n p) as [|c rest]; [discriminate H|].
    exists c, rest. split; [reflexivity|].
    unfold str_mem, SUPPORTED_FORMATS in H. simpl in H.
    repeat (apply orb_true_iff in H as [H|H]); try discriminate H;
      apply str_eqb_eq in H; injection H as Hc Hr;
      (split; [exact Hc | rewrite Hr; reflexivity]). }
  destruct Hcut as (c & rest & Hskip & Hc & Hrest).
  apply char_lower_dot in Hc. subst c.
  unfold App.allowed_file. apply andb_true_iff. split.
  - apply (contains_single "." p). rewrite <- (firstn_skipn n p), Hskip.
    apply in_or_app. right. left. reflexivity.
  - unfold rsplit1. destruct (Z.ltb_spec (rfind "." p) 0) as [Hneg|_]; [lia|].
    cbn [nth]. fold n. rewrite Nat.add_comm, <- skipn_skipn, Hskip. exact Hrest.
Qed.

Lemma parser_formats_pass_the_upload_filter_witness :
  App.allowed_file (lit "uploads/Lease.v2.DOCX") = true.
Proof.
  apply (parser_formats_pass_the_upload_filter (lit "uploads/Lease.v2.DOCX")).
  reflexivity.
Defined.

Lemma drop_while_nil {A} (p : A -> bool) (l : list A) :
  drop_while p l = [] -> forallb p l = true.
Proof.
  induction l as [|x t IH]; simpl; [reflexivity|].
  destruct (p x); [exact IH | discriminate].
Qed.

(** [strip] empties exactly the strings of white space. *)
Lemma strip_nil_iff (s : str) : strip s = [] <-> forallb is_space s = true.
Proof.
  split.
  - unfold strip, rstrip, lstrip. intros H.
    apply (f_equal (@rev ascii)) in H. rewrite rev_involutive in H. simpl in H.
    apply drop_while_nil in H. rewrite forallb_forall in H.
    apply drop_while_nil.
    destruct (drop_while is_space s) as [|x t] eqn:E; [reflexivity|].
    pose proof (drop_while_head is_space s x t E) as Hx.
    rewrite (H x) in Hx; [discriminate|]. apply in_rev. rewrite rev_involutive.
    left. reflexivity.
  - intros H. unfold strip, rstrip, lstrip.
    rewrite (drop_while_all _ _ H). reflexivity.
Qed.

(** No piece of [s.split(sep)] contains the separator. *)
Lemma split_char_no_sep (sep : ascii) (s : str) :
  forall piece, In piece (split_char sep s) -> ~ In sep piece.
Proof.
  induction s as [|x t IH]; intros piece Hp; simpl in Hp.
  - destruct Hp as [<-|[]]. intros [].
  - destruct (Ascii.eqb x sep) eqn:Ex.
    + destruct Hp as [<-|Hp]; [intros [] | apply IH; exact Hp].
    + apply Ascii.eqb_neq in Ex.
      destruct (split_char sep t) as [|h r] eqn:E.
      * destruct Hp as [<-|[]]. intros [Hx|[]]. congruence.
      * destruct Hp as [<-|Hp].
        -- intros [Hx|Hh]; [congruence|]. apply (IH h); [left; reflexivity | exact Hh].
        -- apply IH. right. exact Hp.
Qed.

(** Every character of [s] is the separator or lies in a piece. *)
Lemma split_char_cover (sep : ascii) (s : str) (c : ascii) :
  In c s -> c = sep \/ exists piece, In piece (split_char sep s) /\ In c piece.
Proof.
  induction s as [|x t IH]; [intros []|].
  intros Hc. simpl. destruct (Ascii.eqb x sep) eqn:Ex.
  - apply Ascii.eqb_eq in Ex. destruct Hc as [<-|Hc]; [left; exact Ex|].
    destruct (IH Hc) as [->|(piece & Hp & Hin)]; [left; reflexivity|].
    right. exists piece. split; [right; exact Hp | exact Hin].
  - destruct (split_char sep t) as [|h r] eqn:E.
    + destruct Hc as [<-|Hc].
      * right. exists [x]. split; left; reflexivity.
      * destruct (IH Hc) as [->|(piece & [] & _)]. left. reflexivity.
    + destruct Hc as [<-|Hc].
      * right. exists (x :: h). split; left; reflexivity.
      * destruct (IH Hc) as [->|(piece & [<-|Hp] & Hin)]; [left; reflexivity | |].
        -- right. exists (x :: h). split; [left; reflexivity | right; exact Hin].
        -- right. exists piece. split; [right; exact Hp | exact Hin].
Qed.

(** X18. The keywords that the front ends make of the user's argument
    are never empty, carry no white space at either end, and contain no
    comma; so no key of a search through a front end is blank. *)
Theorem front_end_keywords_are_clean (s : str) :
  Forall (fun k => k <> [] /\ strip k = k /\ ~ In ","%char k)
         (keywords_of_argument s).
Proof.
  unfold keywords_of_argument. apply Forall_forall. intros k Hk.
  apply in_map_iff in Hk as (piece & <- & Hp).
  apply filter_In in Hp as [Hpiece Hne].
  split; [destruct (strip piece); [discriminate Hne | discriminate]|].
  split; [apply strip_strip|].
  intros Hc. apply strip_chars in Hc.
  apply (split_char_no_sep "," s piece Hpiece Hc).
Qed.

(** X19. The keyword list that the front ends build is empty exactly
    when the argument is made of commas and white space only, the empty
    argument included: the case in which the command line reports that no
    valid keyword was provided and runs no search. *)
Theorem no_valid_keywords_iff_blank (s : str) :
  keywords_of_argument s = []
  <-> forallb (fun c => is_space c || Ascii.eqb c ",") s = true.
Proof.
  unfold keywords_of_argument. split.
  - intros H. apply map_eq_nil in H. apply forallb_forall. intros c Hc.
    destruct (split_char_cover "," s c Hc) as [->|(piece & Hp & Hin)];
      [apply orb_true_r|].
    apply orb_true_iff. left.
    assert (Hblank : strip piece = []).
    { destruct (strip piece) as [|a t] eqn:E; [reflexivity|].
      assert (Hf : In piece (filter (fun k => match strip k with
                                              | [] => false
                                              | _ => true
                                              end) (split_char "," s))).
      { apply filter_In. split; [exact Hp | rewrite E; reflexivity]. }
      rewrite H in Hf. destruct Hf. }
    apply strip_nil_iff in Hblank. rewrite forallb_forall in Hblank.
    apply Hblank. exact Hin.
  - intros H. rewrite forallb_forall in H.
    rewrite filter_none; [reflexivity|].
    apply Forall_forall. intros piece Hp.
    assert (Hblank : strip piece = []).
    { apply strip_nil_iff. apply forallb_forall. intros c Hc.
      pose proof (H c (split_char_chars "," s piece c Hp Hc)) as Hs.
      apply orb_true_iff in Hs as [Hs|Hs]; [exact Hs|].
      apply Ascii.eqb_eq in Hs. subst c.
      destruct (split_char_no_sep "," s piece Hp Hc). }
    rewrite Hblank. reflexivity.
Qed.

End FrontEnds.

(** ** The empty keyword *)

Section EmptyKeyword.
Import TextAnalyzer.

Lemma scan_found_eps (ic : bool) (prev : option ascii) (rest : str)
      (pos resume : nat) :
  resume <= pos ->
  scan_found ic REps prev rest pos resume = [RMatch pos pos no_marks].
Proof.
  intros H. unfold scan_found. destruct (Nat.ltb_spec pos resume); [lia|].
  unfold match_at. simpl. rewrite Nat.eqb_refl. reflexivity.
Qed.

(** The empty pattern matches once at every position, the end included. *)
Lemma scan_eps_length (ic : bool) (rest : str) :
  forall prev pos resume,
    resume <= pos -> length (scan ic REps prev rest pos resume) = S (length rest).
Proof.
  induction rest as [|c t IH]; intros prev pos resume H.
  - rewrite scan_nil, (scan_found_eps ic prev [] pos resume H). reflexivity.
  - rewrite scan_cons, (scan_found_eps ic prev (c :: t) pos resume H).
    simpl. rewrite IH by lia. reflexivity.
Qed.

(** X20. An empty keyword is found everywhere: when the keywords
    contain the empty string, the mapping reports it with as many snippets
    as the text has positions (its length plus one), capped at ten. *)
Theorem empty_keyword_matches_everywhere (text : str) (keywords : list str) :
  In [] keywords ->
  match_count text keywords [] = Nat.min 10 (S (length text)).
Proof.
  intros H. unfold match_count. rewrite search_keywords_get.
  rewrite (str_mem_In [] keywords H).
  pose proof (keyword_matches_length text []) as Hl.
  unfold re_escape, re_finditer in Hl. cbn [r_lits] in Hl.
  rewrite scan_eps_length in Hl by lia.
  destruct (keyword_matches text []) as [|s l] eqn:E; [discriminate Hl|].
  rewrite (slice_to_nonneg (s :: l) 10) by lia.
  rewrite length_firstn, Hl. reflexivity.
Qed.

Lemma empty_keyword_matches_everywhere_witness :
  match_count (lit "Rent") [lit "rent"; []] [] = 5.
Proof.
  apply (empty_keyword_matches_everywhere (lit "Rent") [lit "rent"; []]).
  right. left. reflexivity.
Defined.

End EmptyKeyword.
